(** * generate_output_gallery.py: a shallow embedding and its properties

    The program scans a source folder, copies every regular file into
    [docs/files/] (renaming on a name collision), and writes
    [docs/index.html] with one card per copied file.

    Conventions of the embedding.
    - A Python [str] is a list of Unicode code points ([N]); [bytes] is a
      list of [Byte.byte].  String literals of the source are written with
      [lit], which decodes the UTF-8 bytes of a Rocq string literal; the
      double quote, which a Rocq literal cannot hold, is the constant [dq].
    - The file system is explicit state: the entries of [docs/files/] are a
      finite map from names to contents, the other outputs are fields of a
      record, and standard output is the list of printed lines.
    - Functions of the Python standard library that the program calls but
      does not define ([json], [csv], [mimetypes], text decoding) are the
      fields of the class [Library].  [pathlib]'s [name], [stem], [suffix]
      and path ordering, [str.replace], [str.lstrip] and [sorted] are
      written out.
    - I/O failures (permissions, disk space) and text that cannot be encoded
      as UTF-8 are outside the model. *)

From Stdlib Require Import NArith DecimalN Lia.
From stdpp Require Import base option list strings gmap sorting.

Set Warnings "-clear-no-such-hyp".

(** ** Strings *)

Abbreviation str := (list N).
Abbreviation bytes := (list Byte.byte).

(** UTF-8 decoding of a (well-formed) literal: [acc] collects the bits of
    the code point being read; a continuation byte emits it when the next
    byte is not a continuation byte. *)
Fixpoint utf8_go (acc : N) (bs : list N) : str :=
  match bs with
  | [] => []
  | b :: rest =>
      if (b <? 128)%N then b :: utf8_go 0 rest
      else if (b <? 192)%N then
        let acc' := (acc * 64 + (b - 128))%N in
        match rest with
        | c :: _ =>
            if ((128 <=? c) && (c <? 192))%N
            then utf8_go acc' rest else acc' :: utf8_go 0 rest
        | [] => [acc']
        end
      else if (b <? 224)%N then utf8_go (b - 192) rest
      else if (b <? 240)%N then utf8_go (b - 224) rest
      else utf8_go (b - 240) rest
  end.

Definition lit (s : string) : str :=
  utf8_go 0 (map Byte.to_N (String.list_byte_of_string s)).

(** The double quote character. *)
Definition dq : str := [34%N].
(** The newline character. *)
Definition nl : str := [10%N].

(** ** [esc] (lines 60-62) *)

(** [s.replace(old, new)] for a one-character [old], which is the only way
    the program calls it: every occurrence of the character is replaced. *)
Definition replace (old : N) (new : str) (s : str) : str :=
  c ← s; if decide (c = old) then new else [c].

Definition c_amp : N := 38.
Definition c_lt : N := 60.
Definition c_gt : N := 62.
Definition c_dq : N := 34.
Definition c_sq : N := 39.

Definition e_amp : str := Eval vm_compute in lit "&amp;".
Definition e_lt : str := Eval vm_compute in lit "&lt;".
Definition e_gt : str := Eval vm_compute in lit "&gt;".
Definition e_quot : str := Eval vm_compute in lit "&quot;".
Definition e_39 : str := Eval vm_compute in lit "&#39;".

Definition esc (s : str) : str :=
  replace c_sq e_39
    (replace c_dq e_quot
       (replace c_gt e_gt
          (replace c_lt e_lt
             (replace c_amp e_amp s)))).

(** The five entities [esc] can produce. *)
Definition entities : list str := [e_amp; e_lt; e_gt; e_quot; e_39].

(** What [esc] does to one character. *)
Definition esc_char (c : N) : str :=
  if decide (c = c_amp) then e_amp
  else if decide (c = c_lt) then e_lt
  else if decide (c = c_gt) then e_gt
  else if decide (c = c_dq) then e_quot
  else if decide (c = c_sq) then e_39
  else [c].

(** ** [pathlib]: names, stems, suffixes and the order of paths

    A path is the list of its parts; [name] is the last part.  [stem] and
    [suffix] follow [pathlib] of Python 3.12 and 3.13 (the program needs
    3.12 or later: the f-string of line 103 holds a backslash): the suffix
    starts at the last dot of the name unless that dot is the first or the
    last character. *)

Abbreviation path := (list str).

Definition c_dot : N := 46.

Definition name (p : path) : str := default [] (last p).

(** [s.rfind(c)]: the last index of [c] in [s], if any. *)
Fixpoint rfind (c : N) (s : str) : option nat :=
  match s with
  | [] => None
  | x :: s' =>
      match rfind c s' with
      | Some i => Some (S i)
      | None => if decide (x = c) then Some 0 else None
      end
  end.

Definition suffix (nm : str) : str :=
  match rfind c_dot nm with
  | Some i => if decide (0 < i ∧ i < length nm - 1) then drop i nm else []
  | None => []
  end.

Definition stem (nm : str) : str :=
  match rfind c_dot nm with
  | Some i => if decide (0 < i ∧ i < length nm - 1) then take i nm else nm
  | None => nm
  end.

(** [s.lstrip(c)] for a one-character [c]. *)
Fixpoint lstrip (c : N) (s : str) : str :=
  match s with
  | [] => []
  | x :: s' => if decide (x = c) then lstrip c s' else s
  end.

(** Python compares sequences at the first position where they differ, and
    a proper prefix is smaller: this is [<] on [str] (by code point) and on
    the part lists of two paths (by [str]). *)
Fixpoint lex_lt {A} `{EqDecision A} (lt : A → A → bool) (a b : list A) : bool :=
  match a, b with
  | _, [] => false
  | [], _ :: _ => true
  | x :: a', y :: b' => if decide (x = y) then lex_lt lt a' b' else lt x y
  end.

Definition str_lt : str → str → bool := lex_lt N.ltb.
Definition path_lt : path → path → bool := lex_lt str_lt.

(** ** [sorted]

    [sorted] is stable and calls only [<].  It is written as the insertion
    sort that has these two properties: an element goes before the first
    element of the sorted rest that is not smaller than it. *)
Fixpoint insert_sorted {A} (lt : A → A → bool) (x : A) (l : list A) : list A :=
  match l with
  | [] => [x]
  | y :: l' => if lt y x then y :: insert_sorted lt x l' else x :: l
  end.

Definition sorted {A} (lt : A → A → bool) (l : list A) : list A :=
  foldr (insert_sorted lt) [] l.

(** ** [str(i)] for a non-negative integer *)
Fixpoint uint_str (d : Decimal.uint) : str :=
  match d with
  | Decimal.Nil => []
  | Decimal.D0 d => 48%N :: uint_str d
  | Decimal.D1 d => 49%N :: uint_str d
  | Decimal.D2 d => 50%N :: uint_str d
  | Decimal.D3 d => 51%N :: uint_str d
  | Decimal.D4 d => 52%N :: uint_str d
  | Decimal.D5 d => 53%N :: uint_str d
  | Decimal.D6 d => 54%N :: uint_str d
  | Decimal.D7 d => 55%N :: uint_str d
  | Decimal.D8 d => 56%N :: uint_str d
  | Decimal.D9 d => 57%N :: uint_str d
  end.

Definition str_of_N (n : N) : str := uint_str (N.to_uint n).

(** ** [human_size] (lines 106-112)

    [x] is a float that starts as [float(n)] and is divided by 1024 at each
    unit; for [n < 2^53] both steps are exact, so [x] is the rational
    [n / den] with [den] a power of 1024.  [f"{x:.1f}"] prints the nearest
    multiple of one tenth, ties to even. *)
Definition units : list str :=
  [lit "B"; lit "KB"; lit "MB"; lit "GB"; lit "TB"].

Definition fmt_1f (num den : N) : str :=
  let q := (10 * num / den)%N in
  let r := (10 * num mod den)%N in
  let t := if (den <? 2 * r)%N then (q + 1)%N
           else if (2 * r =? den)%N then (if N.even q then q else (q + 1)%N)
           else q in
  str_of_N (t / 10) ++ lit "." ++ str_of_N (t mod 10).

Fixpoint human_size_loop (n den : N) (us : list str) : str :=
  match us with
  | [] => []
  | u :: us' =>
      if decide ((n < 1024 * den)%N ∨ us' = []) then fmt_1f n den ++ u
      else human_size_loop n (1024 * den) us'
  end.

Definition human_size (n : N) : str := human_size_loop n 1 units.

(** ** [str.splitlines] *)
Definition is_line_boundary (c : N) : bool :=
  bool_decide (c ∈ [10; 11; 12; 13; 28; 29; 30; 133; 8232; 8233]%N).

(** [cur] is the current line, reversed. *)
Fixpoint splitlines_go (cur : str) (s : str) : list str :=
  match s with
  | [] => match cur with [] => [] | _ => [reverse cur] end
  | c :: s' =>
      if is_line_boundary c then
        match c, s' with
        | 13%N, 10%N :: s'' => reverse cur :: splitlines_go [] s''
        | _, _ => reverse cur :: splitlines_go [] s'
        end
      else splitlines_go (c :: cur) s'
  end.

Definition splitlines (s : str) : list str := splitlines_go [] s.

(** [sep.join(l)] *)
Fixpoint join (sep : str) (l : list str) : str :=
  match l with
  | [] => []
  | [x] => x
  | x :: l' => x ++ sep ++ join sep l'
  end.

(** ** The standard library the program calls

    Each field is a function of Python's standard library as the program
    calls it; the properties below hold for every implementation.
    - [str_lower]: [str.lower].
    - [read_text]: [Path.read_text(encoding="utf-8", errors="replace")],
      as a function of the file's bytes.
    - [json_loads], [json_dumps]: [json.loads(raw)] and
      [json.dumps(data, ensure_ascii=False, indent=2)]; [None] when the
      call raises.
    - [csv_utf8], [csv_utf8_sig]: iterating [csv.reader] over the file
      opened with the encoding: the rows it yields and, when the iteration
      ends in an exception (decoding or [csv.Error]), [str(e)].
    - [guess_type]: the first component of [mimetypes.guess_type]. *)
Class Library := {
  json : Type;
  str_lower : str → str;
  read_text : bytes → str;
  json_loads : str → option json;
  json_dumps : json → option str;
  csv_utf8 : bytes → list (list str) * option str;
  csv_utf8_sig : bytes → list (list str) * option str;
  guess_type : str → option str;
}.

Section program.
Context {L : Library}.

(** ** [preview_for] (lines 64-104)

    [nm] is [path.name], [content] the bytes of the file at [path]. *)

Definition image_exts : list str :=
  [lit "png"; lit "jpg"; lit "jpeg"; lit "gif"; lit "svg"; lit "webp"].
Definition text_exts : list str := [lit "txt"; lit "log"; lit "md"].

Definition ext (nm : str) : str := lstrip c_dot (str_lower (suffix nm)).

Definition img_preview (nm rel_href : str) : str :=
  lit "<img src=" ++ dq ++ rel_href ++ dq ++ lit " alt=" ++ dq ++ esc nm ++ dq
  ++ lit " style=" ++ dq
  ++ lit "max-width:100%;height:auto;border:1px solid #eee;border-radius:6px;"
  ++ dq ++ lit " loading=" ++ dq ++ lit "lazy" ++ dq ++ lit "/>".

Definition pdf_preview (rel_href : str) : str :=
  lit "<div class=" ++ dq ++ lit "pdf-wrap" ++ dq ++ lit "><iframe src=" ++ dq
  ++ rel_href ++ dq ++ lit " title=" ++ dq ++ lit "pdf" ++ dq
  ++ lit "></iframe><div class=" ++ dq ++ lit "note" ++ dq
  ++ lit ">若無法預覽，請點下載。</div></div>".

(** One [try] body of the csv branch (lines 73-77 and 80-84), started with
    the current [header] and [rows]: the header is the first row the reader
    yields ([[]] when it yields none); each further row is appended until
    the 31st is fetched ([break]), the reader is exhausted, or it raises. *)
Definition read_rows (rd : list (list str) * option str)
    (header : list str) (rows : list (list str))
    : list str * list (list str) * option str :=
  match rd with
  | ([], None) => ([], rows, None)
  | ([], Some e) => (header, rows, Some e)
  | (h :: rest, e) =>
      if decide (30 < length rest) then (h, rows ++ take 30 rest, None)
      else (h, rows ++ rest, e)
  end.

Definition th (h : str) : str := lit "<th>" ++ esc h ++ lit "</th>".
Definition td (c : str) : str := lit "<td>" ++ esc c ++ lit "</td>".
Definition tr (r : list str) : str :=
  lit "<tr>" ++ concat (td <$> r) ++ lit "</tr>".

Definition csv_table (header : list str) (rows : list (list str)) : str :=
  lit "<div class=" ++ dq ++ lit "table-wrap" ++ dq
  ++ lit "><table><thead><tr>" ++ concat (th <$> header)
  ++ lit "</tr></thead><tbody>" ++ concat (tr <$> rows)
  ++ lit "</tbody></table><p class=" ++ dq ++ lit "note" ++ dq
  ++ lit ">僅顯示前 " ++ str_of_N (N.of_nat (length rows))
  ++ lit " 列。</p></div>".

Definition csv_error (e : str) : str :=
  lit "<p class=" ++ dq ++ lit "note" ++ dq ++ lit ">CSV 讀取失敗："
  ++ esc e ++ lit "</p>".

Definition csv_preview (content : bytes) : str :=
  let '(header, rows, e1) := read_rows (csv_utf8 content) [] [] in
  match e1 with
  | None => csv_table header rows
  | Some _ =>
      let '(header, rows, e2) := read_rows (csv_utf8_sig content) header rows in
      match e2 with
      | None => csv_table header rows
      | Some e => csv_error e
      end
  end.

Definition pre_code (text : str) : str :=
  lit "<pre class=" ++ dq ++ lit "code" ++ dq ++ lit ">" ++ esc text
  ++ lit "</pre>".

(** The [try] of lines 94-99: [None] stands for any exception raised by
    [json.loads] or [json.dumps]. *)
Definition json_pretty (content : bytes) : str :=
  match json_loads (read_text content) ≫= json_dumps with
  | Some pretty => pretty
  | None => take (N.to_nat 200000) (read_text content)
  end.

(** Line 103 joins the lines with the string the expression ["\\n"]
    denotes inside the replacement field: a backslash and an [n]. *)
Definition text_preview (content : bytes) : str :=
  pre_code (join [92%N; 110%N] (take 200 (splitlines (read_text content)))).

Definition no_preview : str :=
  lit "<p class=" ++ dq ++ lit "note" ++ dq ++ lit ">此檔案型別未提供預覽。</p>".

Definition preview_for (nm : str) (content : bytes) (rel_href : str) : str :=
  if decide (ext nm ∈ image_exts) then img_preview nm rel_href
  else if decide (ext nm = lit "pdf") then pdf_preview rel_href
  else if decide (ext nm = lit "csv") then csv_preview content
  else if decide (ext nm = lit "json") then pre_code (json_pretty content)
  else if decide (ext nm ∈ text_exts) then text_preview content
  else no_preview.

(** ** The copy loop (lines 131-138) *)

(** [f"{src.stem}_{i}{src.suffix}"] for a source whose name is [nm]. *)
Definition numbered (nm : str) (i : N) : str :=
  stem nm ++ lit "_" ++ str_of_N i ++ suffix nm.

(** The [while dst.exists()] loop over the entries [d] of [docs/files/],
    entered with the candidate [dst] and the counter [i].  [None] when the
    fuel runs out. *)
Fixpoint dedup_loop (fuel : nat) (d : gmap str bytes) (nm dst : str) (i : N)
    : option str :=
  match fuel with
  | 0 => None
  | S fuel' =>
      if decide (is_Some (d !! dst))
      then dedup_loop fuel' d nm (numbered nm i) (i + 1)%N
      else Some dst
  end.

(** Lines 132-137: the loop starts at the source's own name with [i = 1].
    The fuel is never used up ([destination_spec]). *)
Definition destination (d : gmap str bytes) (nm : str) : option str :=
  dedup_loop (S (S (size d))) d nm nm 1%N.

(** ** The card of one file (lines 139-155)

    [dst] is the name of the copy, [content] its bytes. *)
Definition rel_of (dst : str) : str := lit "./files/" ++ dst.

Definition badge (dst : str) : str :=
  match str_lower (lstrip c_dot (suffix dst)) with
  | [] => lit "file"
  | b => b
  end.

Definition kind_of (dst : str) : str :=
  default (lit "application/octet-stream") (guess_type dst).

Definition card (dst : str) (content : bytes) : str :=
  nl ++ lit "<article class=" ++ dq ++ lit "card" ++ dq ++ lit ">" ++ nl
  ++ lit "  <div class=" ++ dq ++ lit "meta" ++ dq ++ lit ">" ++ nl
  ++ lit "    <div><span class=" ++ dq ++ lit "badge" ++ dq ++ lit ">"
  ++ esc (badge dst) ++ lit "</span></div>" ++ nl
  ++ lit "    <div><b>檔名</b>" ++ esc dst ++ lit "</div>" ++ nl
  ++ lit "    <div><b>大小</b>" ++ human_size (N.of_nat (length content))
  ++ lit "</div>" ++ nl
  ++ lit "    <div><b>MIME</b>" ++ esc (kind_of dst) ++ lit "</div>" ++ nl
  ++ lit "  </div>" ++ nl
  ++ lit "  " ++ preview_for dst content (rel_of dst) ++ nl
  ++ lit "  <div><a class=" ++ dq ++ lit "btn" ++ dq ++ lit " href=" ++ dq
  ++ rel_of dst ++ dq ++ lit " download>下載</a></div>" ++ nl
  ++ lit "</article>" ++ nl.

(** One iteration of the [for] loop: the destination is chosen, the bytes
    are written under it, and the card is built from the copy. *)
Definition copy_file (d : gmap str bytes) (src : path * bytes)
    : option (gmap str bytes * (str * str)) :=
  dst ← destination d (name src.1);
  Some (<[dst := src.2]> d, (dst, card dst src.2)).

(** The [for] loop: the entries of [docs/files/] afterwards and, for each
    source in turn, the name of its copy and its card. *)
Fixpoint copy_all (d : gmap str bytes) (srcs : list (path * bytes))
    : option (gmap str bytes * list (str * str)) :=
  match srcs with
  | [] => Some (d, [])
  | src :: rest =>
      '(d1, c) ← copy_file d src;
      '(d2, cs) ← copy_all d1 rest;
      Some (d2, c :: cs)
  end.

(** ** The pages (lines 120-123 and 157-173) *)

Definition missing_page (src_dir : str) : str :=
  lit "<!doctype html><meta charset='utf-8'><link rel='stylesheet' href='./site_assets/styles.css'>"
  ++ lit "<body><main><h1>資料夾不存在</h1><p class='note'>找不到來源資料夾：<code>"
  ++ esc src_dir ++ lit "</code></p></main></body>".

Definition html_page (src_dir updated : str) (cards : list str) : str :=
  lit "<!doctype html>" ++ nl
  ++ lit "<html lang=" ++ dq ++ lit "zh-Hant" ++ dq ++ lit ">" ++ nl
  ++ lit "<meta charset=" ++ dq ++ lit "utf-8" ++ dq ++ lit "/>" ++ nl
  ++ lit "<meta name=" ++ dq ++ lit "viewport" ++ dq ++ lit " content=" ++ dq
  ++ lit "width=device-width,initial-scale=1" ++ dq ++ lit "/>" ++ nl
  ++ lit "<title>資料夾內容總覽</title>" ++ nl
  ++ lit "<link rel=" ++ dq ++ lit "stylesheet" ++ dq ++ lit " href=" ++ dq
  ++ lit "./site_assets/styles.css" ++ dq ++ lit "/>" ++ nl
  ++ lit "<body>" ++ nl
  ++ lit "<header><h1>資料夾內容總覽</h1></header>" ++ nl
  ++ lit "<main>" ++ nl
  ++ lit "  <p class=" ++ dq ++ lit "note" ++ dq ++ lit ">來源資料夾：<code>"
  ++ esc src_dir ++ lit "</code>；更新時間：" ++ updated ++ lit "</p>" ++ nl
  ++ lit "  <section class=" ++ dq ++ lit "grid" ++ dq ++ lit ">" ++ nl
  ++ lit "    "
  ++ match cards with
     | [] => lit "<p class='note'>資料夾目前沒有檔案。</p>"
     | _ => concat cards
     end ++ nl
  ++ lit "  </section>" ++ nl
  ++ lit "</main>" ++ nl
  ++ lit "</body>" ++ nl
  ++ lit "</html>".

(** ** The world and [main] (lines 114-175)

    - [docs_files]: the entries of [docs/files/], [None] when the directory
      does not exist.
    - [index_html]: the text of [docs/index.html], if the file exists.
    - [styles_css]: whether [docs/site_assets/styles.css] holds the
      stylesheet of [write_css] (its text is a constant of the program).
    - [stdout]: the lines printed so far. *)
Record world := World {
  docs_files : option (gmap str bytes);
  index_html : option str;
  styles_css : bool;
  stdout : list str;
}.

(** What [rglob] finds under the source folder. *)
Inductive node := File (content : bytes) | Dir.

(** The source folder: [src_dir] is [str(SRC_DIR)]; [src_tree] is [None]
    when [SRC_DIR] does not exist, and otherwise what
    [SRC_DIR.rglob("*")] yields, in the order it yields it. *)
Record source := Source {
  src_dir : str;
  src_tree : option (list (path * node));
}.

(** The entries of [docs/files/]; none when the directory does not exist. *)
Definition entries (w : world) : gmap str bytes := default ∅ (docs_files w).

Definition ensure_dirs (w : world) : world :=
  World (Some (entries w)) (index_html w) (styles_css w) (stdout w).

Definition write_css (w : world) : world :=
  World (docs_files w) (index_html w) true (stdout w).

(** Line 129: the paths of [rglob] that are regular files, each with the
    bytes [read_bytes] returns for it. *)
Definition src_files (tree : list (path * node)) : list (path * bytes) :=
  omap (λ e, match e.2 with File b => Some (e.1, b) | Dir => None end) tree.

(** [sorted(src_files)] compares the paths. *)
Definition src_lt (a b : path * bytes) : bool := path_lt a.1 b.1.

(** [main], given the text [updated] that line 157 computes from the clock.
    [None] only if the fuel of a [while] loop ran out ([main_total]). *)
Definition main (updated : str) (src : source) (w0 : world) : option world :=
  let w := write_css (ensure_dirs w0) in
  match src_tree src with
  | None =>
      Some (World (docs_files w) (Some (missing_page (src_dir src)))
              (styles_css w)
              (stdout w ++ [lit "Source folder not found: " ++ src_dir src]))
  | Some tree =>
      '(d, cs) ← copy_all (entries w) (sorted src_lt (src_files tree));
      Some (World (Some d) (Some (html_page (src_dir src) updated cs.*2))
              (styles_css w)
              (stdout w ++ [lit "[OK] Wrote docs/index.html from " ++ src_dir src]))
  end.

End program.

(** ** Vocabulary of the properties *)

(** [dst] is the name the collision rule gives a source named [nm] when
    the entries of [docs/files/] are [d]: [nm] itself when it is free, and
    otherwise the candidate with the smallest counter from 1 that is free. *)
Definition collision_rule (d : gmap str bytes) (nm dst : str) : Prop :=
  (d !! nm = None ∧ dst = nm)
  ∨ (is_Some (d !! nm) ∧
     ∃ n : N, (1 ≤ n)%N ∧ dst = numbered nm n ∧ d !! dst = None ∧
       ∀ m : N, (1 ≤ m < n)%N → is_Some (d !! numbered nm m)).

(** [s] occurs in [t]. *)
Definition infix_of (s t : str) : Prop := ∃ a b, t = a ++ s ++ b.

(** [s] starts [t]. *)
Fixpoint starts_with (s t : str) : bool :=
  match s, t with
  | [], _ => true
  | _ :: _, [] => false
  | x :: s', y :: t' => (x =? y)%N && starts_with s' t'
  end.

Fixpoint is_infix (s t : str) : bool :=
  starts_with s t || match t with [] => false | _ :: t' => is_infix s t' end.

(** The number of positions of [t] at which [s] starts. *)
Fixpoint count_sub (s t : str) : nat :=
  match t with
  | [] => 0
  | _ :: t' => (if starts_with s t then 1 else 0) + count_sub s t'
  end.

(** A boolean [<] that is a strict total order. *)
Class StrictTotalB {A} (lt : A → A → bool) := {
  ltb_irrefl x : lt x x = false;
  ltb_trans x y z : lt x y = true → lt y z = true → lt x z = true;
  ltb_trich x y : lt x y = false → lt y x = false → x = y;
}.


(** ** A small library, to run the program on examples

    It agrees with Python on the inputs of the examples below, which are
    ASCII: [str.lower] on ASCII letters; decoding of ASCII bytes; a [json]
    that reads a non-negative integer literal and rejects any other text; a
    [csv] reader for lines of unquoted, comma-separated fields; and the
    few [mimetypes] entries the examples meet. *)

Definition ascii_lower (s : str) : str :=
  (λ c, if ((65 <=? c) && (c <=? 90))%N then (c + 32)%N else c) <$> s.

Definition ascii_decode (b : bytes) : str := Byte.to_N <$> b.

(** [s.split(c)], with [cur] the current field, reversed. *)
Fixpoint split_on (c : N) (cur : str) (s : str) : list str :=
  match s with
  | [] => [reverse cur]
  | x :: s' =>
      if decide (x = c) then reverse cur :: split_on c [] s'
      else split_on c (x :: cur) s'
  end.

Definition integer_literal (s : str) : option N :=
  let n := foldl (λ acc c, (acc * 10 + (c - 48))%N) 0%N s in
  if decide (str_of_N n = s) then Some n else None.

Definition plain_csv (b : bytes) : list (list str) * option str :=
  ((λ line, match line with [] => [] | _ => split_on 44 [] line end)
     <$> splitlines (ascii_decode b), None).

Definition known_types : list (str * str) :=
  [(lit ".png", lit "image/png"); (lit ".txt", lit "text/plain");
   (lit ".csv", lit "text/csv"); (lit ".json", lit "application/json");
   (lit ".pdf", lit "application/pdf")].

Definition plain_guess_type (nm : str) : option str :=
  snd <$> head (filter (λ e, e.1 = ascii_lower (suffix nm)) known_types).

Definition ascii_library : Library := {|
  json := N;
  str_lower := ascii_lower;
  read_text := ascii_decode;
  json_loads := integer_literal;
  json_dumps := λ n, Some (str_of_N n);
  csv_utf8 := plain_csv;
  csv_utf8_sig := plain_csv;
  guess_type := plain_guess_type;
|}.

(** The bytes of an ASCII literal. *)
Definition ascii_bytes (s : string) : bytes := String.list_byte_of_string s.

(** ** Example inputs *)

(** A source folder [uploads] that holds the one file [a.txt]. *)
Definition one_file : source :=
  Source (lit "uploads")
    (Some [([lit "uploads"; lit "a.txt"], File (ascii_bytes "x"))]).

(** Nothing has been written yet: [docs/] does not exist. *)
Definition fresh_world : world := World None None false [].

(** [docs/files/] holds one file from before the run. *)
Definition used_world : world :=
  World (Some {[ lit "notes.md" := ascii_bytes "old" ]}) None true [].

(** A source folder whose one file has a double quote in its name:
    [x" onerror="alert(1).png]. *)
Definition quoted_name : str :=
  lit "x" ++ dq ++ lit " onerror=" ++ dq ++ lit "alert(1).png".

Definition quoted_file : source :=
  Source (lit "uploads")
    (Some [([lit "uploads"; quoted_name], File (ascii_bytes "x"))]).

(** ** Vocabulary of the further properties *)

(** The number of tenths that [fmt_1f] prints for [num / den]. *)
Definition tenths (num den : N) : N :=
  let q := (10 * num / den)%N in
  let r := (10 * num mod den)%N in
  if (den <? 2 * r)%N then (q + 1)%N
  else if (2 * r =? den)%N then (if N.even q then q else (q + 1)%N)
  else q.

(** The five characters [esc] replaces. *)
Definition specials : list N := [c_amp; c_lt; c_gt; c_dq; c_sq].

(** A library whose first csv pass raises after the third row, as Python's
    reader does when it meets a field over its size limit there; the second
    pass reads the file through. *)
Definition retry_library : Library := {|
  json := N;
  str_lower := ascii_lower;
  read_text := ascii_decode;
  json_loads := integer_literal;
  json_dumps := λ n, Some (str_of_N n);
  csv_utf8 := λ b, (take 3 (plain_csv b).1,
                    Some (lit "field larger than field limit (131072)"));
  csv_utf8_sig := plain_csv;
  guess_type := plain_guess_type;
|}.

(** A library whose csv passes both raise at once, as Python's do on a file
    that starts with a byte UTF-8 cannot decode. *)
Definition failing_library : Library := {|
  json := N;
  str_lower := ascii_lower;
  read_text := ascii_decode;
  json_loads := integer_literal;
  json_dumps := λ n, Some (str_of_N n);
  csv_utf8 := λ _, ([], Some (lit "'utf-8' codec can't decode byte 0xff"));
  csv_utf8_sig := λ _, ([], Some (lit "'utf-8' codec can't decode byte 0xff"));
  guess_type := plain_guess_type;
|}.

(** * Properties *)

(** ** Properties of [esc] *)

Lemma replace_app old new (s t : str) :
  replace old new (s ++ t) = replace old new s ++ replace old new t.
Proof. unfold replace. apply bind_app. Qed.

Lemma replace_cons old new c (s : str) :
  replace old new (c :: s)
  = (if decide (c = old) then new else [c]) ++ replace old new s.
Proof. reflexivity. Qed.

Lemma esc_app (s t : str) : esc (s ++ t) = esc s ++ esc t.
Proof. unfold esc. by rewrite !replace_app. Qed.

Lemma esc_single (c : N) : esc [c] = esc_char c.
Proof.
  unfold esc, esc_char, replace. simpl.
  destruct (decide (c = c_amp)) as [->|?]; [reflexivity|]. simpl.
  destruct (decide (c = c_lt)) as [->|?]; [reflexivity|]. simpl.
  destruct (decide (c = c_gt)) as [->|?]; [reflexivity|]. simpl.
  destruct (decide (c = c_dq)) as [->|?]; [reflexivity|]. simpl.
  destruct (decide (c = c_sq)) as [->|?]; reflexivity.
Qed.

Lemma esc_nil : esc [] = [].
Proof. reflexivity. Qed.

Lemma esc_cons (c : N) (s : str) : esc (c :: s) = esc_char c ++ esc s.
Proof. by rewrite <- esc_single, <- esc_app. Qed.

(** [esc] works character by character. *)
Lemma esc_bind (s : str) : esc s = s ≫= esc_char.
Proof.
  induction s as [|c s IH]; [reflexivity|].
  by rewrite esc_cons, IH.
Qed.

(** A character is escaped to an entity or kept, and it is kept only when
    it is none of the five special characters. *)
Lemma esc_char_cases (c : N) :
  (esc_char c ∈ entities ∧ (c = c_amp ∨ c = c_lt ∨ c = c_gt ∨ c = c_dq ∨ c = c_sq))
  ∨ (esc_char c = [c] ∧ c ≠ c_amp ∧ c ≠ c_lt ∧ c ≠ c_gt ∧ c ≠ c_dq ∧ c ≠ c_sq).
Proof.
  unfold esc_char, entities.
  do 5 (case_decide; [left; split; [rewrite !elem_of_cons | ]; tauto | ]).
  by right.
Qed.

Lemma entity_inv (e : str) :
  e ∈ entities → e = e_amp ∨ e = e_lt ∨ e = e_gt ∨ e = e_quot ∨ e = e_39.
Proof. unfold entities. rewrite !elem_of_cons, elem_of_nil. tauto. Qed.

(** Inside an entity the only ampersand is the first character, and none
    of the other four special characters occurs. *)
Lemma entity_chars (e : str) (j : nat) (c : N) :
  e ∈ entities → e !! j = Some c →
  c ≠ c_lt ∧ c ≠ c_gt ∧ c ≠ c_dq ∧ c ≠ c_sq ∧ (c = c_amp → j = 0).
Proof.
  intros He Hj. apply entity_inv in He.
  destruct He as [->|[->|[->|[->| ->]]]];
    do 6 (destruct j as [|j]; [simplify_eq/=; by repeat split|]);
    done.
Qed.

Lemma esc_no_special (s : str) (c : N) :
  c ∈ esc s → c ≠ c_lt ∧ c ≠ c_gt ∧ c ≠ c_dq ∧ c ≠ c_sq.
Proof.
  rewrite esc_bind. intros (x & Hc & _)%list_elem_of_bind.
  destruct (esc_char_cases x) as [[He _]|[Heq ?]].
  - apply list_elem_of_lookup in Hc as [j Hj].
    by destruct (entity_chars _ _ _ He Hj) as (? & ? & ? & ? & _).
  - rewrite Heq in Hc. apply list_elem_of_singleton in Hc as ->. tauto.
Qed.

Lemma esc_amp_entity (s : str) (i : nat) :
  esc s !! i = Some c_amp →
  ∃ e, e ∈ entities ∧ e `prefix_of` drop i (esc s).
Proof.
  revert i. induction s as [|c s IH]; intros i Hi; [done|].
  rewrite esc_cons in Hi |- *.
  destruct (decide (i < length (esc_char c))) as [Hlt|Hge].
  - rewrite lookup_app_l in Hi by done.
    destruct (esc_char_cases c) as [[He _]|[Heq Hne]].
    + destruct (entity_chars _ _ _ He Hi) as (_ & _ & _ & _ & H0).
      rewrite (H0 eq_refl). exists (esc_char c). split; [done|].
      by apply prefix_app_r.
    + rewrite Heq in Hi. destruct i; simplify_eq/=; tauto.
  - rewrite lookup_app_r in Hi by lia.
    destruct (IH _ Hi) as (e & He & Hp). exists e. split; [done|].
    by rewrite drop_app_ge by lia.
Qed.

Lemma esc_inj (s t : str) : esc s = esc t → s = t.
Proof.
  revert t. induction s as [|c s IH]; intros [|d t] H.
  - done.
  - rewrite esc_cons in H. unfold esc_char in H.
    repeat case_decide; discriminate H.
  - rewrite esc_cons in H. unfold esc_char in H.
    repeat case_decide; discriminate H.
  - rewrite !esc_cons in H.
    assert (c = d ∧ esc s = esc t) as [-> Hst].
    { unfold esc_char in H.
      repeat case_decide; subst; simplify_eq/=; try done. }
    f_equal. by apply IH.
Qed.

(** An entity that is already in the input is escaped again: only its
    ampersand changes. *)
Lemma esc_entity (e : str) : e ∈ entities → esc e = e_amp ++ drop 1 e.
Proof.
  intros He. apply entity_inv in He.
  by destruct He as [->|[->|[->|[->| ->]]]].
Qed.

(** ** Names: [stem], [suffix] and the numbered candidates *)

Lemma stem_suffix (nm : str) : stem nm ++ suffix nm = nm.
Proof.
  unfold stem, suffix. destruct (rfind c_dot nm) as [i|]; [|apply app_nil_r].
  case_decide; [apply take_drop | apply app_nil_r].
Qed.

Lemma uint_str_inj (d e : Decimal.uint) : uint_str d = uint_str e → d = e.
Proof.
  revert e. induction d; intros [] Heq; simplify_eq/=; f_equal; auto.
Qed.

Lemma str_of_N_inj (i j : N) : str_of_N i = str_of_N j → i = j.
Proof. intros Heq%uint_str_inj. by apply Unsigned.to_uint_inj. Qed.

(** Two candidates of one source differ when their counters differ. *)
Lemma numbered_inj (nm : str) (i j : N) : numbered nm i = numbered nm j → i = j.
Proof.
  unfold numbered. intros Heq%app_inv_head%app_inv_head%app_inv_tail.
  by apply str_of_N_inj.
Qed.

(** A candidate is never the name itself. *)
Lemma numbered_ne_name (nm : str) (i : N) : numbered nm i ≠ nm.
Proof.
  intros Heq. apply (f_equal length) in Heq.
  rewrite <- (stem_suffix nm) in Heq at 2. unfold numbered in Heq.
  rewrite !length_app in Heq. simpl in Heq. lia.
Qed.

(** ** The [while] loop ends, on the smallest free counter *)

(** Among [size d + 1] consecutive counters one gives a free name. *)
Lemma free_counter (d : gmap str bytes) (nm : str) (i : N) :
  ∃ k : nat, k ≤ size d ∧ d !! numbered nm (i + N.of_nat k) = None.
Proof.
  set (cand := λ k : nat, numbered nm (i + N.of_nat k)).
  destruct (decide (Forall (λ k, is_Some (d !! cand k)) (seq 0 (S (size d)))))
    as [Hall|Hex].
  - exfalso.
    assert (NoDup (cand <$> seq 0 (S (size d)))) as Hnd.
    { apply NoDup_fmap_2_strong; [|apply NoDup_seq].
      intros a b _ _ Heq%numbered_inj. lia. }
    assert (cand <$> seq 0 (S (size d)) ⊆+ elements (dom d)) as Hsub.
    { apply NoDup_submseteq; [done|]. intros x (k & -> & Hk)%list_elem_of_fmap.
      rewrite Forall_forall in Hall.
      apply elem_of_elements, elem_of_dom, Hall, Hk. }
    apply submseteq_length in Hsub.
    rewrite length_fmap, length_seq in Hsub.
    change (length (elements (dom d))) with (size (dom d)) in Hsub.
    rewrite size_dom in Hsub. lia.
  - apply not_Forall_Exists in Hex; [|apply _].
    apply Exists_exists in Hex as (k & Hk & Hfree).
    apply elem_of_seq in Hk. exists k. split; [lia|].
    by apply eq_None_not_Some.
Qed.

(** Once the loop is at the candidate of counter [i], it stops at the
    first free candidate from [i] on, given fuel for the steps up to it. *)
Lemma dedup_loop_numbered (d : gmap str bytes) (nm : str) (k : nat) :
  ∀ (i : N) (fuel : nat),
    d !! numbered nm (i + N.of_nat k) = None → k < fuel →
    ∃ j : N, (i ≤ j ≤ i + N.of_nat k)%N ∧
      dedup_loop fuel d nm (numbered nm i) (i + 1) = Some (numbered nm j) ∧
      d !! numbered nm j = None ∧
      ∀ m : N, (i ≤ m < j)%N → is_Some (d !! numbered nm m).
Proof.
  induction k as [|k IH]; intros i [|fuel] Hfree Hlt; try lia.
  - rewrite N.add_0_r in Hfree. exists i. simpl.
    rewrite decide_False by (by rewrite Hfree; intros []).
    split; [lia|]. split; [done|]. split; [done|]. intros; lia.
  - simpl. destruct (decide (is_Some (d !! numbered nm i))) as [Hi|Hi].
    + destruct (IH (i + 1)%N fuel) as (j & Hj & Hloop & Hjfree & Hbelow).
      { by replace (i + 1 + N.of_nat k)%N with (i + N.of_nat (S k))%N by lia. }
      { lia. }
      exists j. split; [lia|]. split; [done|]. split; [done|].
      intros m Hm. destruct (decide (m = i)) as [->|]; [done|].
      apply Hbelow. lia.
    + exists i. split; [lia|]. split; [done|].
      split; [by apply eq_None_not_Some|]. intros; lia.
Qed.

(** The destination always exists and follows the collision rule. *)
Lemma destination_spec (d : gmap str bytes) (nm : str) :
  ∃ dst, destination d nm = Some dst ∧ collision_rule d nm dst.
Proof.
  unfold destination. cbn [dedup_loop].
  destruct (decide (is_Some (d !! nm))) as [Hnm|Hnm].
  - destruct (free_counter d nm 1) as (k & Hk & Hfree).
    destruct (dedup_loop_numbered d nm k 1 (S (size d)) Hfree)
      as (j & Hj & Hloop & Hjfree & Hbelow); [lia|].
    exists (numbered nm j). split; [done|]. right. split; [done|].
    exists j. split; [lia|]. split; [done|]. split; [done|].
    intros m Hm. by apply Hbelow.
  - exists nm. split; [done|]. left. split; [|done].
    by apply eq_None_not_Some.
Qed.

Lemma collision_rule_fresh (d : gmap str bytes) (nm dst : str) :
  collision_rule d nm dst → d !! dst = None.
Proof. intros [[? ->]|(_ & n & _ & _ & ? & _)]; done. Qed.

(** The rule names one destination. *)
Lemma collision_rule_unique (d : gmap str bytes) (nm dst1 dst2 : str) :
  collision_rule d nm dst1 → collision_rule d nm dst2 → dst1 = dst2.
Proof.
  intros [[H1 ->]|(H1 & n1 & Hn1 & -> & Hf1 & Hb1)]
         [[H2 ->]|(H2 & n2 & Hn2 & -> & Hf2 & Hb2)]; try done.
  - rewrite H1 in H2. by destruct H2.
  - rewrite H2 in H1. by destruct H1.
  - f_equal. destruct (N.lt_trichotomy n1 n2) as [Hlt|[->|Hlt]]; [|done|].
    + destruct (Hb2 n1) as [? Hs]; [lia|]. by rewrite Hf1 in Hs.
    + destruct (Hb1 n2) as [? Hs]; [lia|]. by rewrite Hf2 in Hs.
Qed.

(** ** The copy loop *)

Section copy_loop.
Context {L : Library}.

Lemma copy_file_spec (d : gmap str bytes) (src : path * bytes) :
  ∃ dst, copy_file d src = Some (<[dst := src.2]> d, (dst, card dst src.2))
         ∧ collision_rule d (name src.1) dst.
Proof.
  destruct (destination_spec d (name src.1)) as (dst & Hdst & Hrule).
  exists dst. split; [|done]. unfold copy_file. by rewrite Hdst.
Qed.

Lemma copy_all_cons (d : gmap str bytes) src rest :
  ∃ dst, collision_rule d (name src.1) dst ∧
    copy_all d (src :: rest)
    = '(d2, cs) ← copy_all (<[dst := src.2]> d) rest;
      Some (d2, (dst, card dst src.2) :: cs).
Proof.
  destruct (copy_file_spec d src) as (dst & Hcopy & Hrule).
  exists dst. split; [done|]. cbn [copy_all]. by rewrite Hcopy.
Qed.

(** The loop never runs out of fuel. *)
Lemma copy_all_total (d : gmap str bytes) (srcs : list (path * bytes)) :
  ∃ d' out, copy_all d srcs = Some (d', out).
Proof.
  revert d. induction srcs as [|src rest IH]; intros d; [by eexists _, _|].
  destruct (copy_all_cons d src rest) as (dst & _ & ->).
  destruct (IH (<[dst := src.2]> d)) as (d' & out & ->). by eexists _, _.
Qed.

(** What one run of the loop does to the entries [d] of [docs/files/]:
    every source gets one new entry, under a name that was free and that no
    other source of the run gets, holding the bytes of the source; the
    entries that were there stay as they were. *)
Lemma copy_all_inv (srcs : list (path * bytes)) :
  ∀ (d d' : gmap str bytes) (out : list (str * str)),
    copy_all d srcs = Some (d', out) →
    length out = length srcs
    ∧ NoDup out.*1
    ∧ (∀ x, x ∈ out.*1 → d !! x = None)
    ∧ d ⊆ d'
    ∧ size d' = size d + length srcs
    ∧ dom d' = dom d ∪ list_to_set out.*1
    ∧ (∀ k dst c src, out !! k = Some (dst, c) → srcs !! k = Some src →
         d' !! dst = Some src.2 ∧ c = card dst src.2).
Proof.
  induction srcs as [|src rest IH]; intros d d' out Hrun.
  - simplify_eq/=. split; [done|]. split; [constructor|].
    split; [by intros ? ?%elem_of_nil|]. split; [done|]. split; [lia|].
    split; [set_solver|]. by intros [].
  - destruct (copy_all_cons d src rest) as (dst & Hrule & Heq).
    rewrite Heq in Hrun. clear Heq.
    destruct (copy_all (<[dst:=src.2]> d) rest) as [[d2 cs]|] eqn:Hrest;
      simplify_eq/=.
    apply collision_rule_fresh in Hrule.
    destruct (IH _ _ _ Hrest) as (Hlen & Hnd & Hfree & Hsub & Hsize & Hdom & Hcopy).
    assert (dst ∉ cs.*1) as Hdst.
    { intros Hin%Hfree. by rewrite lookup_insert_eq in Hin. }
    split; [by rewrite Hlen|]. split; [by constructor|].
    split.
    { intros x [->|Hx]%elem_of_cons; [done|].
      destruct (decide (x = dst)) as [->|Hne]; [done|].
      apply Hfree in Hx. by rewrite lookup_insert_ne in Hx. }
    split.
    { etrans; [|exact Hsub]. by apply insert_subseteq. }
    split.
    { rewrite Hsize, map_size_insert_None by done. lia. }
    split.
    { rewrite Hdom, dom_insert_L.
      by rewrite (assoc_L (∪)), (comm_L (∪) (dom d) {[dst]}). }
    intros [|k] dst' c src' Hout Hsrc; simplify_eq/=.
    + split; [|done]. eapply lookup_weaken; [|exact Hsub].
      apply lookup_insert_eq.
    + by apply (Hcopy k).
Qed.

(** The loop over a list in two parts is the loop over the first part
    followed by the loop over the second. *)
Lemma copy_all_app (l1 l2 : list (path * bytes)) :
  ∀ d d' out, copy_all d (l1 ++ l2) = Some (d', out) →
    ∃ d1 o1 o2, copy_all d l1 = Some (d1, o1) ∧ copy_all d1 l2 = Some (d', o2)
                ∧ out = o1 ++ o2.
Proof.
  induction l1 as [|src l1 IH]; intros d d' out Hrun.
  - by exists d, [], out.
  - rewrite <- app_comm_cons in Hrun. cbn [copy_all] in Hrun |- *.
    destruct (copy_file d src) as [[d1 c]|]; [|done]. cbn in Hrun |- *.
    destruct (copy_all d1 (l1 ++ l2)) as [[d2 cs]|] eqn:Hrest; simplify_eq/=.
    destruct (IH _ _ _ Hrest) as (d3 & o1 & o2 & -> & Hl2 & ->).
    by exists d3, (c :: o1), o2.
Qed.

End copy_loop.

(** ** The order of paths *)

#[global] Instance N_ltb_strict : StrictTotalB N.ltb.
Proof.
  split.
  - intros x. apply N.ltb_irrefl.
  - intros x y z. rewrite !N.ltb_lt. lia.
  - intros x y. rewrite !N.ltb_ge. lia.
Qed.

#[global] Instance lex_lt_strict {A} `{EqDecision A} (lt : A → A → bool) :
  StrictTotalB lt → StrictTotalB (lex_lt lt).
Proof.
  intros Hlt. split.
  - intros a. induction a as [|x a IH]; [done|]. simpl. by rewrite decide_True.
  - intros a. induction a as [|x a IH]; intros [|y b] [|z c] Hab Hbc;
      simplify_eq/=; try done.
    destruct (decide (x = y)) as [->|Hxy], (decide (y = z)) as [->|Hyz].
    + by eapply IH.
    + done.
    + by rewrite decide_False.
    + destruct (decide (x = z)) as [->|Hxz]; [|by eapply ltb_trans].
      pose proof (ltb_trans _ _ _ Hab Hbc) as Hzz.
      by rewrite ltb_irrefl in Hzz.
  - intros a. induction a as [|x a IH]; intros [|y b] Hab Hba;
      simplify_eq/=; try done.
    destruct (decide (x = y)) as [->|Hxy].
    + rewrite decide_True in Hba by done. f_equal. by apply IH.
    + rewrite decide_False in Hba by done. by destruct Hxy; apply ltb_trich.
Qed.

#[global] Instance str_lt_strict : StrictTotalB str_lt.
Proof. unfold str_lt. apply _. Qed.

#[global] Instance path_lt_strict : StrictTotalB path_lt.
Proof. unfold path_lt. apply _. Qed.



(** ** [sorted] *)

Section sorted.
Context {A K : Type} (key : A → K) (ltk : K → K → bool) `{!StrictTotalB ltk}.

(** The elements are compared by a key, as the sources are by their path. *)
Let lt (a b : A) : bool := ltk (key a) (key b).

Lemma insert_sorted_perm (x : A) (l : list A) : insert_sorted lt x l ≡ₚ x :: l.
Proof.
  induction l as [|y l IH]; [done|]. simpl. destruct (lt y x); [|done].
  rewrite IH. apply Permutation_swap.
Qed.

Lemma sorted_perm (l : list A) : sorted lt l ≡ₚ l.
Proof.
  induction l as [|x l IH]; [done|]. unfold sorted in *. simpl.
  by rewrite insert_sorted_perm, IH.
Qed.





End sorted.

(** ** Occurrences of one string in another *)

Lemma starts_with_spec (s t : str) :
  starts_with s t = true ↔ ∃ b, t = s ++ b.
Proof.
  revert t. induction s as [|x s IH]; intros t; simpl.
  - split; [by exists t|done].
  - destruct t as [|y t].
    + split; [done|]. by intros [? ?].
    + rewrite andb_true_iff, N.eqb_eq, IH. split.
      * intros [-> [b ->]]. by exists b.
      * intros [b Hb]. simplify_eq. eauto.
Qed.

Lemma is_infix_spec (s t : str) : is_infix s t = true ↔ infix_of s t.
Proof.
  unfold infix_of. induction t as [|y t IH]; simpl.
  - rewrite orb_false_r, starts_with_spec. split.
    + intros [b Hb]. by exists [], b.
    + intros (a & b & Hab). symmetry in Hab.
      apply app_eq_nil in Hab as [-> Hab]. eauto.
  - rewrite orb_true_iff, starts_with_spec, IH. split.
    + intros [[b Hb]|(a & b & ->)]; [by exists [], b|by exists (y :: a), b].
    + intros ([|z a] & b & Hab); simplify_eq/=; [left|right]; eauto.
Qed.

(** ** C10: the output of [esc] *)

(** C10. For every string [s]: [esc s] holds none of the characters
    [<], [>], double quote and single quote; every [&] of [esc s] is the
    first character of one of the entities [&amp;], [&lt;], [&gt;],
    [&quot;], [&#39;]; an entity that is already in the input is escaped
    again, by its ampersand; and [esc] is injective. *)
Theorem esc_output (s : str) :
  (∀ c, c ∈ esc s → c ≠ c_lt ∧ c ≠ c_gt ∧ c ≠ c_dq ∧ c ≠ c_sq)
  ∧ (∀ i, esc s !! i = Some c_amp →
       ∃ e, e ∈ entities ∧ e `prefix_of` drop i (esc s))
  ∧ (∀ e, e ∈ entities → esc e = e_amp ++ drop 1 e)
  ∧ (∀ t, esc s = esc t → s = t).
Proof.
  split; [apply esc_no_special|]. split; [apply esc_amp_entity|].
  split; [apply esc_entity|]. apply esc_inj.
Qed.

(** ** C9: the collision loop terminates *)

(** C9. For every finite set [d] of entries of the output files directory
    and every source name [nm], some counter [n >= 1] gives a name
    [stem_n suffix] that is not in [d]; the [while] loop, entered at any
    candidate and counter, stops after finitely many steps on a name that
    is not in [d]; and so the destination of a copy step always exists and
    is a fresh name. *)
Theorem collision_loop_terminates (d : gmap str bytes) (nm : str) :
  (∃ n : N, (1 ≤ n)%N ∧ d !! numbered nm n = None)
  ∧ (∀ (dst : str) (i : N),
       ∃ fuel r, dedup_loop fuel d nm dst i = Some r ∧ d !! r = None)
  ∧ (∃ dst, destination d nm = Some dst ∧ d !! dst = None).
Proof.
  split; [|split].
  - destruct (free_counter d nm 1) as (k & _ & Hfree).
    exists (1 + N.of_nat k)%N. split; [lia|done].
  - intros dst i. destruct (decide (is_Some (d !! dst))) as [Hdst|Hdst].
    + destruct (free_counter d nm i) as (k & _ & Hfree).
      destruct (dedup_loop_numbered d nm k i (S k) Hfree)
        as (j & _ & Hloop & Hjfree & _); [lia|].
      exists (S (S k)), (numbered nm j). split; [|done].
      cbn [dedup_loop]. by rewrite decide_True.
    + exists 1, dst. split; [|by apply eq_None_not_Some].
      cbn [dedup_loop]. by rewrite decide_False.
  - destruct (destination_spec d nm) as (dst & Hdst & Hrule).
    exists dst. split; [done|]. by eapply collision_rule_fresh.
Qed.

(** ** C4, C2, C3: what the copy loop leaves in [docs/files/] *)

Section runs.
Context {L : Library}.

(** The state in which the loop reaches its [k]-th source, and the step
    it takes there. *)
Lemma copy_all_at (srcs : list (path * bytes)) (k : nat) (src : path * bytes)
    (d d' : gmap str bytes) (out : list (str * str)) :
  copy_all d srcs = Some (d', out) → srcs !! k = Some src →
  ∃ dk dst,
    copy_all d (take k srcs) = Some (dk, take k out)
    ∧ collision_rule dk (name src.1) dst
    ∧ out !! k = Some (dst, card dst src.2)
    ∧ copy_all (<[dst := src.2]> dk) (drop (S k) srcs) = Some (d', drop (S k) out).
Proof.
  intros Hrun Hk. pose proof (lookup_lt_Some _ _ _ Hk) as Hlt.
  rewrite <- (take_drop_middle srcs k src Hk) in Hrun.
  apply copy_all_app in Hrun as (dk & o1 & o2 & Hpre & Hpost & ->).
  destruct (copy_all_inv _ _ _ _ Hpre) as (Hlen & _).
  rewrite length_take in Hlen.
  destruct (copy_all_cons dk src (drop (S k) srcs)) as (dst & Hrule & Heq).
  rewrite Heq in Hpost. clear Heq.
  destruct (copy_all _ (drop (S k) srcs)) as [[d2 cs]|] eqn:Hrest; simplify_eq/=.
  assert (k = length o1) as -> by lia.
  exists dk, dst. rewrite take_app_length, list_lookup_middle by done.
  split; [done|]. split; [done|]. split; [done|].
  replace (S (length o1)) with (length o1 + 1) by lia.
  rewrite drop_app_add, Nat.add_1_r. exact Hrest.
Qed.

(** [main] on a source folder that exists is the copy loop over the sorted
    regular files, started on the entries that are there. *)
Lemma main_run (updated sd : str) (tree : list (path * node)) (w : world)
    (d' : gmap str bytes) (out : list (str * str)) :
  copy_all (entries w) (sorted src_lt (src_files tree)) = Some (d', out) →
  main updated (Source sd (Some tree)) w
  = Some (World (Some d') (Some (html_page sd updated out.*2)) true
            (stdout w ++ [lit "[OK] Wrote docs/index.html from " ++ sd])).
Proof.
  intros Hrun. unfold main. cbn [src_tree].
  change (entries (write_css (ensure_dirs w))) with (entries w).
  by rewrite Hrun.
Qed.

(** Of two sources with the same name, the later one finds the name taken. *)
Lemma same_name_taken (srcs : list (path * bytes)) (i j : nat)
    (si sj : path * bytes) (d dj : gmap str bytes) (oj : list (str * str)) :
  i < j → srcs !! i = Some si → srcs !! j = Some sj → name si.1 = name sj.1 →
  copy_all d (take j srcs) = Some (dj, oj) →
  is_Some (dj !! name sj.1).
Proof.
  intros Hij Hi Hj Hname Hpre.
  assert (take j srcs !! i = Some si) as Hi' by by rewrite lookup_take_lt.
  destruct (copy_all_at _ _ _ _ _ _ Hpre Hi') as (di & dst & _ & Hrule & _ & Hrest).
  destruct (copy_all_inv _ _ _ _ Hrest) as (_ & _ & _ & Hsub & _).
  rewrite <- Hname.
  assert (is_Some (<[dst:=si.2]> di !! name si.1)) as [b Hb].
  { rewrite lookup_insert. case_decide; [by eexists|].
    destruct Hrule as [[_ ->]|[? _]]; done. }
  exists b. by eapply lookup_weaken.
Qed.

(** C4. In one run the sources are taken in order; each gets as its
    destination its own name when no entry of that name exists at that
    point, and otherwise [stem_n suffix] for the smallest [n >= 1] that
    names no existing entry, and its bytes are stored under that name.  In
    particular, of two sources with the same name, both are in the output
    under different names and the later one is renamed with a number. *)
Theorem collision_renaming (updated sd : str) (tree : list (path * node))
    (w : world) :
  ∃ d' out w',
    copy_all (entries w) (sorted src_lt (src_files tree)) = Some (d', out)
    ∧ main updated (Source sd (Some tree)) w = Some w'
    ∧ docs_files w' = Some d'
    ∧ (∀ k src, sorted src_lt (src_files tree) !! k = Some src →
         ∃ dk dst,
           copy_all (entries w) (take k (sorted src_lt (src_files tree)))
           = Some (dk, take k out)
           ∧ out.*1 !! k = Some dst
           ∧ collision_rule dk (name src.1) dst
           ∧ d' !! dst = Some src.2)
    ∧ (∀ i j si sj, i < j →
         sorted src_lt (src_files tree) !! i = Some si →
         sorted src_lt (src_files tree) !! j = Some sj →
         name si.1 = name sj.1 →
         ∃ di dj n, out.*1 !! i = Some di ∧ out.*1 !! j = Some dj ∧ di ≠ dj
           ∧ d' !! di = Some si.2 ∧ d' !! dj = Some sj.2
           ∧ (1 ≤ n)%N ∧ dj = numbered (name sj.1) n).
Proof.
  set (srcs := sorted src_lt (src_files tree)).
  destruct (copy_all_total (entries w) srcs) as (d' & out & Hrun).
  exists d', out. eexists. split; [done|].
  split; [by apply main_run|]. split; [done|].
  destruct (copy_all_inv _ _ _ _ Hrun) as (_ & Hnd & _ & _ & _ & _ & Hcopy).
  assert (∀ k src, srcs !! k = Some src →
    ∃ dk dst, copy_all (entries w) (take k srcs) = Some (dk, take k out)
      ∧ out.*1 !! k = Some dst ∧ collision_rule dk (name src.1) dst
      ∧ d' !! dst = Some src.2) as Hstep.
  { intros k src Hk.
    destruct (copy_all_at _ _ _ _ _ _ Hrun Hk) as (dk & dst & Hpre & Hrule & Hout & _).
    exists dk, dst. split; [done|].
    split; [by rewrite list_lookup_fmap, Hout|]. split; [done|].
    by destruct (Hcopy _ _ _ _ Hout Hk). }
  split; [done|].
  intros i j si sj Hij Hi Hj Hname.
  destruct (Hstep _ _ Hi) as (di' & di & _ & Houti & _ & Hdi).
  destruct (Hstep _ _ Hj) as (dj' & dj & Hprej & Houtj & Hrule & Hdj).
  pose proof (same_name_taken _ _ _ _ _ _ _ _ Hij Hi Hj Hname Hprej) as Htaken.
  destruct Hrule as [[Hfree _]|(_ & n & Hn & -> & _)].
  { rewrite Hfree in Htaken. by destruct Htaken. }
  exists di, (numbered (name sj.1) n), n.
  split; [done|]. split; [done|]. split; [|done].
  intros ->. assert (i = j) as ->; [|lia].
  by eapply NoDup_lookup.
Qed.

(** C2 (as amended). For every source folder with N regular files, one run
    adds exactly N entries to the output files directory: each source is
    stored under a name that was not in the directory before and that no
    other source of the run gets, and the entries that were there stay.
    When the directory was empty or missing before the run, it holds
    exactly N entries after it. *)
Theorem run_adds_entries (updated sd : str) (tree : list (path * node))
    (w : world) :
  ∃ d' out w',
    copy_all (entries w) (sorted src_lt (src_files tree)) = Some (d', out)
    ∧ main updated (Source sd (Some tree)) w = Some w'
    ∧ docs_files w' = Some d'
    ∧ length out = length (src_files tree)
    ∧ NoDup out.*1
    ∧ (∀ x, x ∈ out.*1 → entries w !! x = None)
    ∧ entries w ⊆ d'
    ∧ dom d' = dom (entries w) ∪ list_to_set out.*1
    ∧ size d' = size (entries w) + length (src_files tree)
    ∧ (entries w = ∅ → size d' = length (src_files tree)).
Proof.
  destruct (copy_all_total (entries w) (sorted src_lt (src_files tree)))
    as (d' & out & Hrun).
  exists d', out. eexists. split; [done|].
  split; [by apply main_run|]. split; [done|].
  destruct (copy_all_inv _ _ _ _ Hrun)
    as (Hlen & Hnd & Hfree & Hsub & Hsize & Hdom & _).
  pose proof (Permutation_length (sorted_perm fst path_lt (src_files tree)))
    as Hperm.
  change (sorted _ (src_files tree)) with (sorted src_lt (src_files tree)) in Hperm.
  rewrite Hperm in Hlen, Hsize.
  do 6 (split; [done|]). intros Hempty. rewrite Hsize, Hempty. by rewrite map_size_empty.
Qed.


End runs.

(** The claim C2 as it is stated fails when the output files directory
    is not empty before the run: [uploads] holds one regular file, and
    after the run [docs/files/] holds two entries. *)
Lemma run_on_used_directory :
  ∃ w', main (L:=ascii_library) (lit "t") one_file used_world = Some w'
    ∧ (src_files <$> src_tree one_file)
      = Some [([lit "uploads"; lit "a.txt"], ascii_bytes "x")]
    ∧ size (entries w') = 2
    ∧ entries w' !! lit "a.txt" = Some (ascii_bytes "x")
    ∧ entries w' !! lit "notes.md" = Some (ascii_bytes "old").
Proof.
  eexists. do 4 (split; [vm_compute; reflexivity|]). vm_compute; reflexivity.
Qed.


(** ** C5: the source folder does not exist *)

(** A string without special characters is its own escape. *)
Lemma esc_plain (s : str) :
  (∀ c, c ∈ s → c ∉ [c_amp; c_lt; c_gt; c_dq; c_sq]) → esc s = s.
Proof.
  induction s as [|c s IH]; intros Hs; [done|].
  rewrite esc_cons, IH by (intros; apply Hs; by right). 
  destruct (esc_char_cases c) as [[_ Hc]|[-> _]]; [|done].
  destruct (Hs c); [by left|]. rewrite !elem_of_cons. tauto.
Qed.



(** ** C6: the preview of a json file *)

Section previews.
Context {L : Library}.

Lemma preview_for_json (nm : str) (content : bytes) (rel_href : str) :
  ext nm = lit "json" →
  preview_for nm content rel_href = pre_code (json_pretty content).
Proof.
  intros Hext. unfold preview_for. rewrite Hext.
  rewrite decide_False by (apply (bool_decide_eq_false_1 _); by vm_compute).
  rewrite decide_False by (apply (bool_decide_eq_false_1 _); by vm_compute).
  rewrite decide_False by (apply (bool_decide_eq_false_1 _); by vm_compute).
  by rewrite decide_True.
Qed.

(** C6. For a file whose extension is [json]: when [json.loads] (or the
    re-serialization) raises, the preview is the raw text capped at
    200,000 characters, HTML-escaped, in a [<pre class="code">] block;
    when the parse succeeds and the value is re-serialized to [pretty],
    the preview is [pretty], HTML-escaped, in the same block.  The
    renderer returns in both cases. *)
Theorem json_preview (nm : str) (content : bytes) (rel_href : str) :
  ext nm = lit "json" →
  (json_loads (read_text content) = None →
   preview_for nm content rel_href
   = lit "<pre class=" ++ dq ++ lit "code" ++ dq ++ lit ">"
     ++ esc (take (N.to_nat 200000) (read_text content)) ++ lit "</pre>")
  ∧ (∀ data pretty,
       json_loads (read_text content) = Some data →
       json_dumps data = Some pretty →
       preview_for nm content rel_href
       = lit "<pre class=" ++ dq ++ lit "code" ++ dq ++ lit ">"
         ++ esc pretty ++ lit "</pre>")
  ∧ (∀ data,
       json_loads (read_text content) = Some data →
       json_dumps data = None →
       preview_for nm content rel_href
       = lit "<pre class=" ++ dq ++ lit "code" ++ dq ++ lit ">"
         ++ esc (take (N.to_nat 200000) (read_text content)) ++ lit "</pre>").
Proof.
  intros Hext. rewrite (preview_for_json _ _ _ Hext).
  unfold pre_code, json_pretty. split; [|split].
  - by intros ->.
  - intros data pretty -> Hd. cbn. by rewrite Hd.
  - intros data -> Hd. cbn. by rewrite Hd.
Qed.

End previews.

Lemma json_preview_witness :
  ext (L:=ascii_library) (lit "a.json") = lit "json"
  ∧ preview_for (L:=ascii_library) (lit "a.json") (ascii_bytes "{oops")
      (lit "./files/a.json")
    = lit "<pre class=" ++ dq ++ lit "code" ++ dq ++ lit ">{oops</pre>".
Proof.
  split; [by vm_compute|].
  destruct (json_preview (L:=ascii_library) (lit "a.json") (ascii_bytes "{oops")
              (lit "./files/a.json")) as (Hfail & _); [by vm_compute|].
  rewrite Hfail by (by vm_compute). by vm_compute.
Defined.

(** ** C7: the preview of a csv file *)

(** Every literal of the goal is replaced by its list of code points. *)
Ltac literals :=
  repeat match goal with
    | |- context [lit ?s] =>
        let v := eval vm_compute in (lit s) in change (lit s) with v
    end.

Ltac count_step :=
  cbn [count_sub starts_with N.eqb Pos.eqb andb Nat.add app].

(** No [<tr>] starts inside a string without [<]. *)
Lemma count_tr_skip (s t : str) :
  (∀ c, c ∈ s → c ≠ c_lt) →
  count_sub (lit "<tr>") (s ++ t) = count_sub (lit "<tr>") t.
Proof.
  literals. induction s as [|c s IH]; intros Hs; [done|].
  rewrite <- app_comm_cons. cbn [count_sub starts_with].
  rewrite IH by (intros; apply Hs; by right).
  destruct (N.eqb_spec 60 c) as [<-|_]; [|done].
  by destruct (Hs 60%N); [left|].
Qed.

Lemma count_tr_esc (s t : str) :
  count_sub (lit "<tr>") (esc s ++ t) = count_sub (lit "<tr>") t.
Proof. apply count_tr_skip. intros c Hc. by apply esc_no_special in Hc as []. Qed.

Lemma count_tr_td (c t : str) :
  count_sub (lit "<tr>") (td c ++ t) = count_sub (lit "<tr>") t.
Proof.
  unfold td. rewrite <- !app_assoc.
  transitivity (count_sub (lit "<tr>") (esc c ++ lit "</td>" ++ t)).
  { literals. by count_step. }
  rewrite count_tr_esc. literals. by count_step.
Qed.

Lemma count_tr_tds (r : list str) (t : str) :
  count_sub (lit "<tr>") (concat (td <$> r) ++ t) = count_sub (lit "<tr>") t.
Proof.
  induction r as [|c r IH]; [done|].
  rewrite fmap_cons, concat_cons, <- app_assoc. by rewrite count_tr_td.
Qed.

(** A row is one [<tr>], whatever its cells hold. *)
Lemma count_tr_row (r : list str) (t : str) :
  count_sub (lit "<tr>") (tr r ++ t) = S (count_sub (lit "<tr>") t).
Proof.
  unfold tr. rewrite <- !app_assoc.
  transitivity (S (count_sub (lit "<tr>") (concat (td <$> r) ++ lit "</tr>" ++ t))).
  { literals. by count_step. }
  rewrite count_tr_tds. literals. by count_step.
Qed.

Lemma count_tr_rows (rows : list (list str)) :
  count_sub (lit "<tr>") (concat (tr <$> rows)) = length rows.
Proof.
  induction rows as [|r rows IH]; [done|].
  by rewrite fmap_cons, concat_cons, count_tr_row, IH.
Qed.

Section csv.
Context {L : Library}.

Lemma preview_for_csv (nm : str) (content : bytes) (rel_href : str) :
  ext nm = lit "csv" → preview_for nm content rel_href = csv_preview content.
Proof.
  intros Hext. unfold preview_for. rewrite Hext.
  rewrite decide_False by (apply (bool_decide_eq_false_1 _); by vm_compute).
  rewrite decide_False by (apply (bool_decide_eq_false_1 _); by vm_compute).
  by rewrite decide_True.
Qed.


End csv.


(** ** C8: the files are collected and processed in the order of their paths *)




Section collector.
Context {L : Library}.


End collector.


(** ** C1: what is escaped in a card, and what is not *)

Lemma infix_of_prefix (s t : str) : s `prefix_of` t → infix_of s t.
Proof. intros [b ->]. by exists [], b. Qed.

Lemma infix_of_skip (a s t : str) : infix_of s t → infix_of s (a ++ t).
Proof. intros (x & y & ->). exists (a ++ x), y. by rewrite app_assoc. Qed.

Lemma infix_of_app_l (s t b : str) : infix_of s t → infix_of s (t ++ b).
Proof. intros (x & y & ->). exists x, (y ++ b). by rewrite <- !app_assoc. Qed.

(** [s] is at the head of the goal's string, piece by piece. *)
Ltac at_head :=
  first [ apply prefix_app_r; reflexivity
        | reflexivity
        | apply prefix_app; at_head ].

Section cards.
Context {L : Library}.

Lemma preview_for_image (nm : str) (content : bytes) (rel_href : str) :
  ext nm ∈ image_exts → preview_for nm content rel_href = img_preview nm rel_href.
Proof. intros Himg. unfold preview_for. by rewrite decide_True. Qed.

Lemma preview_for_pdf (nm : str) (content : bytes) (rel_href : str) :
  ext nm = lit "pdf" → preview_for nm content rel_href = pdf_preview rel_href.
Proof.
  intros Hpdf. unfold preview_for. rewrite Hpdf.
  rewrite decide_False by (apply (bool_decide_eq_false_1 _); by vm_compute).
  by rewrite decide_True.
Qed.

(** The download link of a card holds the name of the copy as it is, not
    its escape, and so does the [src] of the image or the frame of a
    preview; the [alt] text beside it is escaped. *)
Lemma card_embeds_name (dst : str) (content : bytes) :
  rel_of dst = lit "./files/" ++ dst
  ∧ infix_of (lit " href=" ++ dq ++ rel_of dst ++ dq) (card dst content)
  ∧ (ext dst ∈ image_exts →
     infix_of (lit "<img src=" ++ dq ++ rel_of dst ++ dq
               ++ lit " alt=" ++ dq ++ esc dst ++ dq)
       (card dst content))
  ∧ (ext dst = lit "pdf" →
     infix_of (lit "><iframe src=" ++ dq ++ rel_of dst ++ dq)
       (card dst content)).
Proof.
  split; [done|]. split; [|split].
  - unfold card. do 42 apply infix_of_skip. apply infix_of_prefix. at_head.
  - intros Himg. unfold card. rewrite preview_for_image by done.
    do 36 apply infix_of_skip. apply infix_of_app_l.
    unfold img_preview. apply infix_of_prefix. at_head.
  - intros Hpdf. unfold card. rewrite preview_for_pdf by done.
    do 36 apply infix_of_skip. apply infix_of_app_l.
    unfold pdf_preview. do 4 apply infix_of_skip. apply infix_of_prefix. at_head.
Qed.

End cards.

(** C1. The claim fails on a file named [x" onerror="alert(1).png]: the
    name is escaped where the card shows it and in the [alt] text, but the
    [src] of the image and the [href] of the download link hold it as it
    is, so the double quote of the name ends the attribute value and the
    page holds an [onerror] attribute that comes from the name. *)
Theorem quote_in_name_ends_attribute :
  ∃ w' page,
    main (L:=ascii_library) (lit "t") quoted_file fresh_world = Some w'
    ∧ index_html w' = Some page
    ∧ infix_of (lit "<b>檔名</b>x&quot; onerror=&quot;alert(1).png</div>") page
    ∧ infix_of (lit " alt=" ++ dq ++ lit "x&quot; onerror=&quot;alert(1).png" ++ dq)
        page
    ∧ infix_of (lit "<img src=" ++ dq ++ lit "./files/x" ++ dq ++ lit " onerror="
                ++ dq ++ lit "alert(1).png" ++ dq ++ lit " alt=")
        page
    ∧ infix_of (lit " href=" ++ dq ++ lit "./files/x" ++ dq ++ lit " onerror="
                ++ dq ++ lit "alert(1).png" ++ dq ++ lit " download>")
        page.
Proof.
  eexists _, _. split; [vm_compute; reflexivity|]. split; [reflexivity|].
  repeat split; apply (proj1 (is_infix_spec _ _)); vm_compute; reflexivity.
Qed.

(** ** [main] returns *)


(** ** The preview of a text file *)

(** For a file whose extension is [txt], [log] or [md], the preview is the
    first 200 lines of the text, joined by a backslash and an [n] (the
    string that ["\\n"] denotes inside the replacement field of line 103),
    HTML-escaped, in a [<pre class="code">] block. *)
Theorem text_preview_head {L : Library} (nm : str) (content : bytes)
    (rel_href : str) :
  ext nm ∈ text_exts →
  preview_for nm content rel_href
  = lit "<pre class=" ++ dq ++ lit "code" ++ dq ++ lit ">"
    ++ esc (join [92%N; 110%N] (take 200 (splitlines (read_text content))))
    ++ lit "</pre>".
Proof.
  intros Htxt. unfold preview_for.
  assert (ext nm = lit "txt" ∨ ext nm = lit "log" ∨ ext nm = lit "md") as Hext.
  { revert Htxt. unfold text_exts. rewrite !elem_of_cons, elem_of_nil. tauto. }
  rewrite (decide_True (P := ext nm ∈ text_exts)) by done.
  destruct Hext as [->|[->| ->]];
    (rewrite decide_False by (apply (bool_decide_eq_false_1 _); by vm_compute));
    (rewrite decide_False by (apply (bool_decide_eq_false_1 _); by vm_compute));
    (rewrite decide_False by (apply (bool_decide_eq_false_1 _); by vm_compute));
    (rewrite decide_False by (apply (bool_decide_eq_false_1 _); by vm_compute));
    reflexivity.
Qed.

Lemma text_preview_head_witness :
  preview_for (L:=ascii_library) (lit "a.txt")
    (ascii_bytes "<a>" ++ [Byte.x0a] ++ ascii_bytes "b") (lit "./files/a.txt")
  = lit "<pre class=" ++ dq ++ lit "code" ++ dq ++ lit ">&lt;a&gt;"
    ++ [92%N; 110%N] ++ lit "b</pre>".
Proof.
  rewrite (text_preview_head (L:=ascii_library)); [by vm_compute|].
  apply (bool_decide_unpack _). by vm_compute.
Defined.

(** * Further properties *)

(** ** [esc]: concatenation, length and fixed points *)

Lemma esc_char_length (c : N) : 1 ≤ length (esc_char c) ≤ 6.
Proof. unfold esc_char. repeat case_decide; simpl; lia. Qed.

Lemma esc_length (s : str) : length s ≤ length (esc s) ≤ 6 * length s.
Proof.
  induction s as [|c s IH]; [simpl; lia|].
  rewrite esc_cons, length_app. pose proof (esc_char_length c). simpl. lia.
Qed.

(** [esc] of a concatenation is the concatenation of the escapes, so a
    page built from escaped pieces is escaped piece by piece; and the
    escape of a string is at least as long as the string and at most six
    times as long. *)
Theorem esc_concat (s t : str) :
  esc (s ++ t) = esc s ++ esc t
  ∧ length s ≤ length (esc s) ≤ 6 * length s.
Proof. split; [apply esc_app|apply esc_length]. Qed.

(** [esc] leaves a string as it is exactly when the string holds none of
    the five special characters. *)
Theorem esc_fixed (s : str) :
  esc s = s ↔ ∀ c, c ∈ s → c ∉ specials.
Proof.
  split; [|apply esc_plain].
  induction s as [|c s IH]; intros Heq x Hx; [by apply elem_of_nil in Hx|].
  rewrite esc_cons in Heq.
  destruct (esc_char_cases c) as [[Hent Hc]|[Hplain Hc]].
  - exfalso. apply entity_inv in Hent.
    pose proof (esc_length s) as Hlen.
    apply (f_equal length) in Heq. rewrite length_app in Heq. simpl in Heq.
    destruct Hent as [He|[He|[He|[He|He]]]]; rewrite He in Heq;
      simpl in Heq; lia.
  - rewrite Hplain in Heq. simplify_eq/=.
    apply elem_of_cons in Hx as [->|Hx]; [|by apply IH].
    unfold specials. rewrite !elem_of_cons, elem_of_nil. tauto.
Qed.

(** ** [human_size] *)

Lemma fmt_1f_tenths (num den : N) :
  fmt_1f num den
  = str_of_N (tenths num den / 10) ++ lit "." ++ str_of_N (tenths num den mod 10).
Proof. reflexivity. Qed.

(** [tenths] is [10 * num / den] rounded to the nearest integer, a tie
    going to the even one. *)
Lemma tenths_round (num den : N) :
  (0 < den)%N →
  (2 * (10 * num) ≤ 2 * (tenths num den * den) + den)%N
  ∧ (2 * (tenths num den * den) ≤ 2 * (10 * num) + den)%N
  ∧ ((2 * (10 * num mod den))%N = den → N.even (tenths num den) = true).
Proof.
  intros Hden. unfold tenths.
  pose proof (N.div_mod (10 * num) den ltac:(lia)) as Hdm.
  pose proof (N.mod_lt (10 * num) den ltac:(lia)) as Hr.
  set (q := (10 * num / den)%N) in *. set (r := (10 * num mod den)%N) in *.
  destruct (N.ltb_spec den (2 * r)) as [Hlt|Hge].
  { split; [nia|]. split; [nia|]. lia. }
  destruct (N.eqb_spec (2 * r) den) as [Heq|Hne].
  - destruct (N.even q) eqn:Heven.
    + split; [nia|]. split; [nia|]. done.
    + split; [nia|]. split; [nia|]. intros _.
      by rewrite N.add_1_r, N.even_succ, <- N.negb_even, Heven.
  - split; [nia|]. split; [nia|]. lia.
Qed.

Lemma human_size_cases (n : N) :
  (n < 1024 ∧ human_size n = fmt_1f n 1 ++ lit "B")%N
  ∨ (1024 ≤ n < 1048576 ∧ human_size n = fmt_1f n 1024 ++ lit "KB")%N
  ∨ (1048576 ≤ n < 1073741824 ∧ human_size n = fmt_1f n 1048576 ++ lit "MB")%N
  ∨ (1073741824 ≤ n < 1099511627776
     ∧ human_size n = fmt_1f n 1073741824 ++ lit "GB")%N
  ∨ (1099511627776 ≤ n ∧ human_size n = fmt_1f n 1099511627776 ++ lit "TB")%N.
Proof.
  unfold human_size, units. cbn [human_size_loop].
  change (1024 * 1)%N with 1024%N.
  change (1024 * 1024)%N with 1048576%N.
  change (1024 * 1048576)%N with 1073741824%N.
  change (1024 * 1073741824)%N with 1099511627776%N.
  destruct (decide (n < 1024)%N) as [?|?].
  { left. rewrite decide_True by by left. split; [lia|done]. }
  right. rewrite decide_False by (intros [?|?]; [lia|done]).
  destruct (decide (n < 1048576)%N) as [?|?].
  { left. rewrite decide_True by by left. split; [lia|done]. }
  right. rewrite decide_False by (intros [?|?]; [lia|done]).
  destruct (decide (n < 1073741824)%N) as [?|?].
  { left. rewrite decide_True by by left. split; [lia|done]. }
  right. rewrite decide_False by (intros [?|?]; [lia|done]).
  destruct (decide (n < 1099511627776)%N) as [?|?].
  { left. rewrite decide_True by by left. split; [lia|done]. }
  right. rewrite decide_False by (intros [?|?]; [lia|done]).
  rewrite decide_True by by right. split; [lia|done].
Qed.

(** For a size of [n] bytes, [n] below 2^53: [human_size] picks the first
    unit of B, KB, MB, GB, TB in which the size is below 1024 (TB when
    there is none), and prints the size in that unit to one decimal, rounded
    to the nearest tenth with a tie going to the even tenth, followed by the
    unit; it never returns without a string. *)
Theorem human_size_spec (n : N) :
  (n < 2 ^ 53)%N →
  ∃ (k : nat) (u : str) (den : N),
    units !! k = Some u ∧ den = (1024 ^ N.of_nat k)%N
    ∧ (k = 4 ∨ (n < 1024 * den)%N)
    ∧ (k = 0 ∨ (den ≤ n)%N)
    ∧ human_size n
      = str_of_N (tenths n den / 10) ++ lit "."
        ++ str_of_N (tenths n den mod 10) ++ u
    ∧ (2 * (10 * n) ≤ 2 * (tenths n den * den) + den)%N
    ∧ (2 * (tenths n den * den) ≤ 2 * (10 * n) + den)%N
    ∧ ((2 * (10 * n mod den))%N = den → N.even (tenths n den) = true).
Proof.
  intros _.
  destruct (human_size_cases n)
    as [[Hn ->]|[[Hn ->]|[[Hn ->]|[[Hn ->]|[Hn ->]]]]].
  - exists 0, (lit "B"), 1%N. rewrite fmt_1f_tenths, <- !app_assoc.
    pose proof (tenths_round n 1 ltac:(lia)).
    repeat (split; [first [done|tauto|lia]|]). tauto.
  - exists 1, (lit "KB"), 1024%N. rewrite fmt_1f_tenths, <- !app_assoc.
    pose proof (tenths_round n 1024 ltac:(lia)).
    repeat (split; [first [done|tauto|lia]|]). tauto.
  - exists 2, (lit "MB"), 1048576%N. rewrite fmt_1f_tenths, <- !app_assoc.
    pose proof (tenths_round n 1048576 ltac:(lia)).
    repeat (split; [first [done|tauto|lia]|]). tauto.
  - exists 3, (lit "GB"), 1073741824%N. rewrite fmt_1f_tenths, <- !app_assoc.
    pose proof (tenths_round n 1073741824 ltac:(lia)).
    repeat (split; [first [done|tauto|lia]|]). tauto.
  - exists 4, (lit "TB"), 1099511627776%N. rewrite fmt_1f_tenths, <- !app_assoc.
    pose proof (tenths_round n 1099511627776 ltac:(lia)).
    repeat (split; [first [done|tauto|lia]|]). tauto.
Qed.

Lemma human_size_spec_witness :
  ∃ (k : nat) (u : str) (den : N),
    units !! k = Some u ∧ den = (1024 ^ N.of_nat k)%N
    ∧ human_size 1536
      = str_of_N (tenths 1536 den / 10) ++ lit "."
        ++ str_of_N (tenths 1536 den mod 10) ++ u
    ∧ human_size 1536 = lit "1.5KB".
Proof.
  destruct (human_size_spec 1536 ltac:(by vm_compute))
    as (k & u & den & Hu & Hden & _ & _ & Heq & _).
  exists k, u, den. split; [done|]. split; [done|]. split; [done|].
  by vm_compute.
Defined.

(** A size below 1024 bytes is printed as it is, with [.0B] after it. *)
Theorem human_size_bytes (n : N) :
  (n < 1024)%N → human_size n = str_of_N n ++ lit ".0B".
Proof.
  intros Hn.
  destruct (human_size_cases n) as [[_ ->]|[[? _]|[[? _]|[[? _]|[? _]]]]];
    try lia.
  assert (tenths n 1 = (n * 10)%N) as Ht.
  { unfold tenths. rewrite N.div_1_r, N.mod_1_r.
    change (1 <? 2 * 0)%N with false. change (2 * 0 =? 1)%N with false.
    cbv iota zeta. lia. }
  rewrite fmt_1f_tenths, Ht, N.div_mul, N.Div0.mod_mul by lia.
  by rewrite <- !app_assoc.
Qed.

Lemma human_size_bytes_witness : human_size 1023 = lit "1023.0B".
Proof. rewrite (human_size_bytes 1023) by lia. by vm_compute. Defined.

(** Rounding is done after the unit is chosen: a size less than one
    twentieth of a unit below 1024 KB, MB or GB is printed as [1024.0] in
    that unit, not as [1.0] in the next one. *)
Theorem human_size_rounds_to_1024 (n : N) (k : nat) (u : str) :
  1 ≤ k ≤ 3 → units !! k = Some u →
  (20479 * 1024 ^ N.of_nat k ≤ 20 * n)%N → (n < 1024 ^ N.of_nat (S k))%N →
  human_size n = lit "1024.0" ++ u.
Proof.
  intros Hk Hu Hlo Hhi.
  assert (k = 1 ∨ k = 2 ∨ k = 3) as [->|[->| ->]] by lia;
    vm_compute in Hu; simplify_eq;
    [change (1024 ^ N.of_nat 1)%N with 1024%N in Hlo;
     change (1024 ^ N.of_nat 2)%N with 1048576%N in Hhi
    |change (1024 ^ N.of_nat 2)%N with 1048576%N in Hlo;
     change (1024 ^ N.of_nat 3)%N with 1073741824%N in Hhi
    |change (1024 ^ N.of_nat 3)%N with 1073741824%N in Hlo;
     change (1024 ^ N.of_nat 4)%N with 1099511627776%N in Hhi];
    (destruct (human_size_cases n) as [[? _]|[[? Heq]|[[? Heq]|[[? Heq]|[? _]]]]];
     try lia; rewrite Heq, fmt_1f_tenths);
    match goal with
    | |- context [tenths n ?den] =>
        assert (tenths n den = 10240%N) as ->;
        [unfold tenths;
         pose proof (N.div_mod (10 * n) den ltac:(lia));
         pose proof (N.mod_lt (10 * n) den ltac:(lia));
         assert ((10 * n / den)%N = 10239%N) as Hq
           by (symmetry;
               apply (N.div_unique (10 * n) den 10239 (10 * n - 10239 * den));
               lia);
         rewrite Hq in *;
         destruct (N.ltb_spec den (2 * (10 * n mod den))); [done|lia]
        |done]
    end.
Qed.

Lemma human_size_rounds_to_1024_witness : human_size 1048575 = lit "1024.0KB".
Proof.
  rewrite (human_size_rounds_to_1024 1048575 1 (lit "KB"));
    [by vm_compute|lia|done|by vm_compute|by vm_compute].
Defined.

(** ** The csv preview: any number of rows, the retry, the error note *)

Section csv_more.
Context {L : Library}.

(** One pass that does not end in an exception, or that yields more than
    31 rows before it would: the header is the first row, and at most 30
    of the rows after it are appended. *)
Lemma read_rows_ok (rows : list (list str)) (e : option str)
    (header0 : list str) (rows0 : list (list str)) :
  e = None ∨ 31 < length rows →
  read_rows (rows, e) header0 rows0
  = (default [] (head rows), rows0 ++ take 30 (tail rows), None).
Proof.
  intros He. unfold read_rows. destruct rows as [|h rest].
  - destruct He as [->|?]; [by rewrite app_nil_r|simpl in *; lia].
  - cbn [head tail default]. case_decide.
    + done.
    + destruct He as [->|?]; [|simpl in *; lia].
      by rewrite take_ge by lia.
Qed.

(** One pass that ends in an exception after at most 31 rows: the rows
    after the first have been appended, and the header is the first row if
    there was one. *)
Lemma read_rows_raise (rows : list (list str)) (e : str)
    (header0 : list str) (rows0 : list (list str)) :
  length rows ≤ 31 →
  read_rows (rows, Some e) header0 rows0
  = (default header0 (head rows), rows0 ++ tail rows, Some e).
Proof.
  intros Hlen. unfold read_rows. destruct rows as [|h rest].
  - by rewrite app_nil_r.
  - cbn [head tail default]. rewrite decide_False by (simpl in *; lia). done.
Qed.


(** When the first pass raises after it has appended rows and the second
    pass succeeds, the rows of the first pass stay: the body of the table
    is the rows the first pass read followed by up to 30 rows of the second
    pass, under the header of the second pass, so it can hold up to 60
    rows. *)
Theorem csv_retry_keeps_rows (nm : str) (content : bytes) (rel_href : str)
    (rows1 rows2 : list (list str)) (e1 : str) :
  ext nm = lit "csv" →
  csv_utf8 content = (rows1, Some e1) → length rows1 ≤ 31 →
  csv_utf8_sig content = (rows2, None) →
  preview_for nm content rel_href
  = csv_table (default [] (head rows2)) (tail rows1 ++ take 30 (tail rows2))
  ∧ count_sub (lit "<tr>")
      (concat (tr <$> (tail rows1 ++ take 30 (tail rows2))))
    = (length rows1 - 1) + (length rows2 - 1) `min` 30.
Proof.
  intros Hext Hrd1 Hlen1 Hrd2. split.
  - rewrite (preview_for_csv _ _ _ Hext). unfold csv_preview.
    rewrite Hrd1, (read_rows_raise _ _ _ _ Hlen1). cbn [app].
    by rewrite Hrd2, (read_rows_ok _ _ _ _ (or_introl eq_refl)).
  - rewrite count_tr_rows, length_app, length_take, !length_tl. lia.
Qed.

(** When both passes raise, the preview is the note that holds the
    HTML-escaped message of the second exception, and no table. *)
Theorem csv_preview_error (nm : str) (content : bytes) (rel_href : str)
    (rows1 rows2 : list (list str)) (e1 e2 : str) :
  ext nm = lit "csv" →
  csv_utf8 content = (rows1, Some e1) → length rows1 ≤ 31 →
  csv_utf8_sig content = (rows2, Some e2) → length rows2 ≤ 31 →
  preview_for nm content rel_href
  = lit "<p class=" ++ dq ++ lit "note" ++ dq ++ lit ">CSV 讀取失敗："
    ++ esc e2 ++ lit "</p>".
Proof.
  intros Hext Hrd1 Hlen1 Hrd2 Hlen2.
  rewrite (preview_for_csv _ _ _ Hext). unfold csv_preview.
  rewrite Hrd1, (read_rows_raise _ _ _ _ Hlen1). cbn [app].
  by rewrite Hrd2, (read_rows_raise _ _ _ _ Hlen2).
Qed.

End csv_more.


Lemma csv_retry_keeps_rows_witness :
  count_sub (lit "<tr>")
    (concat (tr <$> ([[lit "1"]; [lit "2"]]
                     ++ take 30 [[lit "1"]; [lit "2"]; [lit "3"]])))
  = 5
  ∧ preview_for (L:=retry_library) (lit "r.csv")
      (ascii_bytes "h" ++ [Byte.x0a] ++ ascii_bytes "1" ++ [Byte.x0a]
       ++ ascii_bytes "2" ++ [Byte.x0a] ++ ascii_bytes "3" ++ [Byte.x0a])
      (lit "./files/r.csv")
    = csv_table [lit "h"]
        [[lit "1"]; [lit "2"]; [lit "1"]; [lit "2"]; [lit "3"]].
Proof.
  pose proof (csv_retry_keeps_rows (L:=retry_library) (lit "r.csv")
    (ascii_bytes "h" ++ [Byte.x0a] ++ ascii_bytes "1" ++ [Byte.x0a]
     ++ ascii_bytes "2" ++ [Byte.x0a] ++ ascii_bytes "3" ++ [Byte.x0a])
    (lit "./files/r.csv")
    [[lit "h"]; [lit "1"]; [lit "2"]]
    [[lit "h"]; [lit "1"]; [lit "2"]; [lit "3"]]
    (lit "field larger than field limit (131072)")
    ltac:(by vm_compute) ltac:(by vm_compute) ltac:(simpl; lia)
    ltac:(by vm_compute)) as [Hprev Hcount].
  split; [exact Hcount|exact Hprev].
Defined.

Lemma csv_preview_error_witness :
  preview_for (L:=failing_library) (lit "bad.csv") [Byte.xff]
    (lit "./files/bad.csv")
  = lit "<p class=" ++ dq ++ lit "note" ++ dq
    ++ lit ">CSV 讀取失敗：&#39;utf-8&#39; codec can&#39;t decode byte 0xff</p>".
Proof.
  rewrite (csv_preview_error (L:=failing_library) (lit "bad.csv") [Byte.xff]
             (lit "./files/bad.csv") [] []
             (lit "'utf-8' codec can't decode byte 0xff")
             (lit "'utf-8' codec can't decode byte 0xff")
             ltac:(by vm_compute) eq_refl ltac:(simpl; lia) eq_refl
             ltac:(simpl; lia)).
  by vm_compute.
Defined.

(** ** Renaming keeps the extension *)

Lemma rfind_None (c : N) (s : str) : rfind c s = None ↔ c ∉ s.
Proof.
  induction s as [|x s IH]; simpl.
  - split; [intros _; apply not_elem_of_nil|done].
  - rewrite not_elem_of_cons. destruct (rfind c s) as [i|].
    + split; [done|]. intros [_ Hs]. by apply IH in Hs.
    + case_decide; split; try done.
      * intros [? _]. congruence.
      * intros _. split; [congruence|]. by apply IH.
Qed.

Lemma rfind_app_r (c : N) (s t : str) (j : nat) :
  rfind c t = Some j → rfind c (s ++ t) = Some (length s + j).
Proof.
  intros Ht. induction s as [|x s IH]; [done|]. simpl. by rewrite IH.
Qed.

Lemma rfind_app_l (c : N) (s t : str) :
  rfind c t = None → rfind c (s ++ t) = rfind c s.
Proof.
  intros Ht. induction s as [|x s IH]; [by rewrite app_nil_l|].
  simpl. by rewrite IH.
Qed.

Lemma rfind_drop (c : N) (s : str) (i : nat) :
  rfind c s = Some i → rfind c (drop i s) = Some 0.
Proof.
  revert i. induction s as [|x s IH]; intros i Hi; [done|]. simpl in Hi.
  destruct (rfind c s) as [k|] eqn:Hs.
  - simplify_eq. simpl. by apply IH.
  - case_decide; simplify_eq. simpl. rewrite Hs. by rewrite decide_True.
Qed.

Lemma rfind_lt (c : N) (s : str) (i : nat) : rfind c s = Some i → i < length s.
Proof.
  revert i. induction s as [|x s IH]; intros i Hi; [done|]. simpl in *.
  destruct (rfind c s) as [k|].
  - simplify_eq. specialize (IH k eq_refl). lia.
  - case_decide; simplify_eq. lia.
Qed.

(** The stem and suffix of a name whose last dot starts a piece [s] of two
    characters or more, after a piece [a] that is not empty. *)
Lemma suffix_app (a s : str) :
  rfind c_dot s = Some 0 → 1 < length s → 0 < length a →
  suffix (a ++ s) = s ∧ stem (a ++ s) = a.
Proof.
  intros Hs Hlen Ha. unfold suffix, stem.
  rewrite (rfind_app_r _ _ _ _ Hs), Nat.add_0_r.
  rewrite !decide_True by (rewrite length_app; lia).
  by rewrite drop_app_length, take_app_length.
Qed.

Lemma str_of_N_digits (i c : N) : c ∈ str_of_N i → (48 ≤ c ≤ 57)%N.
Proof.
  unfold str_of_N. generalize (N.to_uint i). intros d.
  induction d; simpl; rewrite ?elem_of_cons; [by intros ?%elem_of_nil|..];
    intros [->|?]; auto; lia.
Qed.

Lemma numbered_tail_no_dot (i : N) : c_dot ∉ lit "_" ++ str_of_N i.
Proof.
  intros [Hin|Hin]%elem_of_app.
  - vm_compute in Hin. apply list_elem_of_singleton in Hin. discriminate Hin.
  - apply str_of_N_digits in Hin. unfold c_dot in Hin. lia.
Qed.

Section rename.
Context {L : Library}.

(** A collision rename keeps the extension.  For a name with a suffix, the
    numbered name has the same suffix, and its stem is the old stem with
    the counter after it; for a name without a dot the numbered name has no
    suffix either.  So the renamed copy gets the same kind of preview and
    the same badge as a copy under the name itself would. *)
Theorem rename_keeps_suffix (nm : str) (i : N) :
  suffix nm ≠ [] ∨ c_dot ∉ nm →
  suffix (numbered nm i) = suffix nm
  ∧ stem (numbered nm i) = stem nm ++ lit "_" ++ str_of_N i
  ∧ ext (numbered nm i) = ext nm
  ∧ badge (numbered nm i) = badge nm.
Proof.
  intros Hnm.
  assert (suffix (numbered nm i) = suffix nm
          ∧ stem (numbered nm i) = stem nm ++ lit "_" ++ str_of_N i) as [Hs Ht].
  { destruct Hnm as [Hsuf|Hdot].
    - assert (∃ k, rfind c_dot nm = Some k ∧ 0 < k ∧ k < length nm - 1
                   ∧ suffix nm = drop k nm) as (k & Hk & Hk0 & Hk1 & Heq).
      { unfold suffix in Hsuf |- *. destruct (rfind c_dot nm) as [k|]; [|done].
        case_decide; [|done]. exists k. tauto. }
      unfold numbered. rewrite Heq.
      rewrite (app_assoc (lit "_")), (app_assoc (stem nm)).
      apply (suffix_app (stem nm ++ lit "_" ++ str_of_N i) (drop k nm)).
      + by apply rfind_drop.
      + rewrite length_drop. lia.
      + rewrite !length_app. simpl. lia.
    - apply rfind_None in Hdot as Hr.
      assert (suffix nm = [] ∧ stem nm = nm) as [Hs0 Ht0].
      { unfold suffix, stem. by rewrite Hr. }
      unfold numbered. rewrite Hs0, Ht0, app_nil_r.
      assert (rfind c_dot (nm ++ lit "_" ++ str_of_N i) = None) as Hr'.
      { apply rfind_None. rewrite elem_of_app. intros [?|?]; [done|].
        by eapply numbered_tail_no_dot. }
      unfold suffix, stem. by rewrite Hr'. }
  split; [done|]. split; [done|]. unfold ext, badge. by rewrite Hs.
Qed.

End rename.

Lemma rename_keeps_suffix_witness :
  suffix (numbered (lit "report.final.CSV") 12) = lit ".CSV"
  ∧ stem (numbered (lit "report.final.CSV") 12) = lit "report.final_12"
  ∧ ext (L:=ascii_library) (numbered (lit "report.final.CSV") 12) = lit "csv".
Proof.
  destruct (rename_keeps_suffix (L:=ascii_library) (lit "report.final.CSV") 12)
    as (Hs & Ht & He & _); [left; by vm_compute|].
  rewrite Hs, Ht, He. by vm_compute.
Defined.

(** ** Files that share one name *)

Section same_name.
Context {L : Library}.

(** Once the name and the candidates below [k] are taken and those from
    [k] on are free, the sources of that name get the candidates [k],
    [k + 1], ... in turn. *)
Lemma copy_all_numbered (nm : str) (srcs : list (path * bytes)) :
  ∀ (k : N) (d : gmap str bytes),
    Forall (λ src, name src.1 = nm) srcs →
    (1 ≤ k)%N → is_Some (d !! nm) →
    (∀ m : N, (1 ≤ m < k)%N → is_Some (d !! numbered nm m)) →
    (∀ m : N, (k ≤ m)%N → d !! numbered nm m = None) →
    ∃ d' out, copy_all d srcs = Some (d', out)
      ∧ out.*1 = (λ j, numbered nm (k + N.of_nat j)) <$> seq 0 (length srcs).
Proof.
  induction srcs as [|src rest IH]; intros k d Hall Hk Hnm Hbelow Hfree.
  { by exists d, []. }
  apply Forall_cons in Hall as [Hsrc Hall].
  destruct (copy_all_cons d src rest) as (dst & Hrule & ->).
  rewrite Hsrc in Hrule.
  assert (collision_rule d nm (numbered nm k)) as Hk_rule.
  { right. split; [done|]. exists k. split; [done|]. split; [done|].
    split; [apply Hfree; lia|done]. }
  rewrite (collision_rule_unique _ _ _ _ Hrule Hk_rule). clear dst Hrule.
  destruct (IH (k + 1)%N (<[numbered nm k := src.2]> d)) as (d' & out & -> & Hout).
  - done.
  - lia.
  - rewrite lookup_insert_is_Some. destruct (decide (numbered nm k = nm)); auto.
  - intros m Hm. rewrite lookup_insert_is_Some.
    destruct (decide (m = k)) as [->|Hne]; [by left|].
    right. split; [by intros ?%numbered_inj|]. apply Hbelow. lia.
  - intros m Hm. rewrite lookup_insert_ne; [apply Hfree; lia|].
    intros ?%numbered_inj. lia.
  - eexists _, _. split; [done|]. cbn [fmap list_fmap fst length seq].
    rewrite N.add_0_r, Hout. f_equal.
    rewrite <- fmap_S_seq, <- list_fmap_compose.
    apply list_fmap_ext. intros _ j _. simpl. f_equal. lia.
Qed.

(** When the output files directory holds neither a name nor any of its
    numbered candidates, the sources of that name are stored, in the order
    they are processed, under the name itself, then under [stem_1 suffix],
    [stem_2 suffix], and so on without a gap. *)
Theorem same_name_sequence (nm : str) (srcs : list (path * bytes))
    (d : gmap str bytes) :
  Forall (λ src, name src.1 = nm) srcs →
  d !! nm = None → (∀ m : N, (1 ≤ m)%N → d !! numbered nm m = None) →
  ∃ d' out, copy_all d srcs = Some (d', out)
    ∧ ∀ j src, srcs !! j = Some src →
        out.*1 !! j
        = Some (if decide (j = 0) then nm else numbered nm (N.of_nat j))
        ∧ d' !! (if decide (j = 0) then nm else numbered nm (N.of_nat j))
          = Some src.2.
Proof.
  intros Hall Hnm Hfree.
  destruct (copy_all_total d srcs) as (d' & out & Hrun).
  exists d', out. split; [done|].
  assert (∀ j, j < length srcs →
    out.*1 !! j = Some (if decide (j = 0) then nm else numbered nm (N.of_nat j)))
    as Hnames.
  { destruct srcs as [|src rest]; [simpl; lia|].
    apply Forall_cons in Hall as [Hsrc Hall].
    destruct (copy_all_cons d src rest) as (dst & Hrule & Heq).
    rewrite Heq in Hrun. clear Heq. rewrite Hsrc in Hrule.
    assert (collision_rule d nm nm) as Hnm_rule by by left.
    rewrite (collision_rule_unique _ _ _ _ Hrule Hnm_rule) in Hrun.
    destruct (copy_all_numbered nm rest 1 (<[nm := src.2]> d))
      as (d2 & out2 & Hrest & Hout2); [done|lia| | | |].
    - rewrite lookup_insert_eq. by eexists.
    - intros m Hm. lia.
    - intros m Hm. rewrite lookup_insert_ne; [by apply Hfree|].
      apply not_eq_sym, numbered_ne_name.
    - rewrite Hrest in Hrun. simplify_eq/=.
      intros [|j] Hj; [done|].
      rewrite lookup_cons_ne_0 by lia. cbn [Nat.pred].
      rewrite Hout2, list_lookup_fmap, lookup_seq_lt by lia.
      rewrite decide_False by lia. cbn. do 2 f_equal. lia. }
  intros j src Hj. pose proof (lookup_lt_Some _ _ _ Hj) as Hlt.
  split; [by apply Hnames|].
  destruct (copy_all_inv _ _ _ _ Hrun) as (_ & _ & _ & _ & _ & _ & Hcopy).
  specialize (Hnames j Hlt). rewrite list_lookup_fmap in Hnames.
  destruct (out !! j) as [[dst c]|] eqn:Hout; simplify_eq/=.
  by destruct (Hcopy _ _ _ _ Hout Hj).
Qed.

End same_name.

Lemma same_name_sequence_witness :
  ∃ d' out,
    copy_all (L:=ascii_library) ∅
      [([lit "u"; lit "a"; lit "x.txt"], ascii_bytes "1");
       ([lit "u"; lit "b"; lit "x.txt"], ascii_bytes "2");
       ([lit "u"; lit "c"; lit "x.txt"], ascii_bytes "3")]
    = Some (d', out)
    ∧ out.*1 = [lit "x.txt"; lit "x_1.txt"; lit "x_2.txt"]
    ∧ d' !! lit "x_2.txt" = Some (ascii_bytes "3").
Proof.
  destruct (same_name_sequence (L:=ascii_library) (lit "x.txt")
    [([lit "u"; lit "a"; lit "x.txt"], ascii_bytes "1");
     ([lit "u"; lit "b"; lit "x.txt"], ascii_bytes "2");
     ([lit "u"; lit "c"; lit "x.txt"], ascii_bytes "3")] ∅)
    as (d' & out & Hrun & Hnames).
  - repeat constructor.
  - done.
  - done.
  - exists d', out. split; [done|].
    destruct (copy_all_inv _ _ _ _ Hrun) as (Hlen & _).
    destruct (Hnames 0 _ eq_refl) as [H0 _].
    destruct (Hnames 1 _ eq_refl) as [H1 _].
    destruct (Hnames 2 _ eq_refl) as [H2 Hd2].
    split; [|exact Hd2].
    apply list_eq. intros [|[|[|j]]]; [done..|].
    rewrite lookup_ge_None_2; [done|]. rewrite length_fmap, Hlen. simpl. lia.
Defined.

(** ** The page of a run *)



(** The piece [s] is found among the pieces of the goal's string. *)
Ltac seek :=
  lazymatch goal with
  | |- infix_of ?s (?s ++ _) => apply infix_of_prefix, prefix_app_r; reflexivity
  | |- infix_of ?s (_ ++ _) => apply infix_of_skip; seek
  end.

Lemma html_page_parts (sd updated : str) (cards : list str) :
  infix_of (esc sd) (html_page sd updated cards)
  ∧ infix_of updated (html_page sd updated cards)
  ∧ (cards = [] →
     infix_of (lit "<p class='note'>資料夾目前沒有檔案。</p>")
       (html_page sd updated cards))
  ∧ (cards ≠ [] → infix_of (concat cards) (html_page sd updated cards)).
Proof.
  split; [unfold html_page; seek|]. split; [unfold html_page; seek|]. split.
  - intros ->. unfold html_page. seek.
  - intros Hne. unfold html_page. destruct cards as [|c cs]; [done|]. seek.
Qed.

Lemma src_files_nil (tree : list (path * node)) :
  (∀ p n, (p, n) ∈ tree → n = Dir) → src_files tree = [].
Proof.
  intros Hdir. induction tree as [|[p n] tree IH]; [done|].
  rewrite (Hdir p n) by by left. cbn. apply IH.
  intros q m Hin. apply (Hdir q m). by right.
Qed.

Section page.
Context {L : Library}.


(** A source folder that exists and holds no regular file (it is empty, or
    holds only directories): the page holds the "no files" note in place of
    cards, no entry is added to the output files directory, and the run
    ends with the "wrote" line as for any other folder. *)
Theorem no_regular_files (updated sd : str) (tree : list (path * node))
    (w : world) :
  (∀ p n, (p, n) ∈ tree → n = Dir) →
  ∃ w' page,
    main updated (Source sd (Some tree)) w = Some w'
    ∧ index_html w' = Some page
    ∧ page = html_page sd updated []
    ∧ infix_of (lit "<p class='note'>資料夾目前沒有檔案。</p>") page
    ∧ docs_files w' = Some (entries w)
    ∧ stdout w' = stdout w ++ [lit "[OK] Wrote docs/index.html from " ++ sd].
Proof.
  intros Hdir. apply src_files_nil in Hdir.
  eexists _, _. split.
  { apply main_run. rewrite Hdir. reflexivity. }
  split; [reflexivity|]. split; [reflexivity|].
  split; [|done]. by apply html_page_parts.
Qed.

End page.

Lemma no_regular_files_witness :
  ∃ w', main (L:=ascii_library) (lit "t")
          (Source (lit "uploads") (Some [([lit "uploads"; lit "sub"], Dir)]))
          fresh_world
        = Some w'
    ∧ docs_files w' = Some ∅
    ∧ stdout w' = [lit "[OK] Wrote docs/index.html from uploads"].
Proof.
  destruct (no_regular_files (L:=ascii_library) (lit "t") (lit "uploads")
              [([lit "uploads"; lit "sub"], Dir)] fresh_world)
    as (w' & page & Hmain & _ & _ & _ & Hfiles & Hout).
  - intros p n Hin. apply list_elem_of_singleton in Hin. by simplify_eq.
  - exists w'. split; [done|]. split; [done|]. rewrite Hout. by vm_compute.
Defined.

(** ** The size of the json fallback *)

(** When [json.loads] raises on a json file, the preview is bounded
    whatever the size of the file: at most 200,000 characters of the text
    are escaped, so the fragment is at most 1,200,024 characters long. *)
Theorem json_fallback_bounded {L : Library} (nm : str) (content : bytes)
    (rel_href : str) :
  ext nm = lit "json" → json_loads (read_text content) = None →
  (N.of_nat (length (preview_for nm content rel_href)) ≤ 1200024)%N
  ∧ length (preview_for nm content rel_href)
    ≤ 6 * length (read_text content) + 24.
Proof.
  intros Hext Hfail. rewrite (preview_for_json _ _ _ Hext).
  unfold pre_code, json_pretty. rewrite Hfail. cbn [mbind option_bind].
  rewrite !length_app.
  pose proof (esc_length (take (N.to_nat 200000) (read_text content))) as Hesc.
  rewrite length_take in Hesc.
  change (length (lit "<pre class=")) with 11. change (length dq) with 1.
  change (length (lit "code")) with 4. change (length (lit ">")) with 1.
  change (length (lit "</pre>")) with 6.
  lia.
Qed.

Lemma json_fallback_bounded_witness :
  length (preview_for (L:=ascii_library) (lit "a.json") (ascii_bytes "{<")
            (lit "./files/a.json"))
  ≤ 6 * 2 + 24.
Proof.
  exact (proj2 (json_fallback_bounded (L:=ascii_library) (lit "a.json")
                  (ascii_bytes "{<") (lit "./files/a.json")
                  ltac:(by vm_compute) ltac:(by vm_compute))).
Defined.
